(** * fn_base: scope guard and callable wrappers (function_holder.cpp)

    A shallow embedding of the C++ templates [generic_guard],
    [functor_extension], [generic_functor] (both specializations) and
    [variadic_functor], together with the part of the C++ object model
    they rely on: call expressions with side effects and exceptions,
    defaulted (memberwise) copy and move, destructors run at scope exit,
    virtual dispatch through a base handle, and the choice of a partial
    specialization. *)

From stdpp Require Import base list.
From Stdlib Require Import Lia.

(** ** The language substrate *)

Module Lang.

(** Parameter packs: [Args...] is a list of types, a pack of arguments a
    nested tuple, and a callable taking the pack a curried function. *)
Fixpoint tuple (Ts : list Type) : Type :=
  match Ts with
  | [] => unit
  | T :: Ts' => (T * tuple Ts')%type
  end.

Fixpoint arrow (Ts : list Type) (B : Type) : Type :=
  match Ts with
  | [] => B
  | T :: Ts' => T -> arrow Ts' B
  end.

(** The pack expansion [f(args...)]: the arguments are handed over one by
    one, first to last. *)
Fixpoint apply_pack {Ts : list Type} {B : Type} : arrow Ts B -> tuple Ts -> B :=
  match Ts with
  | [] => fun f _ => f
  | T :: Ts' => fun f a => apply_pack (f (fst a)) (snd a)
  end.

(** One entry of the call log: which callable object was called (in the
    state it had when the call started) and with which arguments. *)
Record event : Type := Call {
  callee_type : Type;
  callee : callee_type;
  arg_types : list Type;
  call_args : tuple arg_types
}.
Arguments Call {callee_type} callee arg_types call_args.

(** The exception specification of the destructor of [F]:
    [destructor_noexcept] is [true] for a destructor that is [noexcept],
    which every destructor is unless it is declared [noexcept(false)]. *)
Class Destructor (F : Type) : Type := { destructor_noexcept : bool }.

#[export] Instance default_destructor (F : Type) : Destructor F | 100 :=
  {| destructor_noexcept := true |}.

Section Semantics.
Context {World Exn : Type}.

(** How a call or a statement ends: normally, by an exception that is
    propagating, or by [std::terminate]. *)
Inductive result (A : Type) : Type :=
| Returned (a : A)
| Threw (e : Exn)
| Terminated.
Arguments Returned {A} a.
Arguments Threw {A} e.
Arguments Terminated {A}.

(** A [void] context drops the value of a call expression. *)
Definition discard {A : Type} (r : result A) : result unit :=
  match r with
  | Returned _ => Returned tt
  | Threw e => Threw e
  | Terminated => Terminated
  end.

(** An exception leaving a [noexcept] function ends the program. *)
Definition noexcept {A : Type} (r : result A) : result A :=
  match r with
  | Threw _ => Terminated
  | _ => r
  end.

(** How a function with exception specification [spec] ends when its
    body ends with [r]. *)
Definition leaving {A : Type} (spec : bool) (r : result A) : result A :=
  if spec then noexcept r else r.

(** The machine: the memory the callables can reach, and the log of the
    calls made so far (oldest first).  User code has no access to the
    log. *)
Record machine : Type := Machine {
  world : World;
  log : list event
}.

(** Statements: state passing with early exit. *)
Definition M (S A : Type) : Type := S -> result A * S.

Definition ret {S A : Type} (a : A) : M S A := fun s => (Returned a, s).

Definition bind {S A B : Type} (m : M S A) (k : A -> M S B) : M S B :=
  fun s =>
    match m s with
    | (Returned a, s') => k a s'
    | (Threw e, s') => (Threw e, s')
    | (Terminated, s') => (Terminated, s')
    end.

(** A callable type [F] for the signature [R(Args...)]: its call
    operator may read and write the memory, change the object's own
    captured state, return a value or throw.  [F] is a value type:
    copying gives an equal value, assignment replaces the value, and
    moving hands the value over and leaves [moved_from f] behind; none
    of these, nor the destructor of [F], throws or touches the memory. *)
Class Callable (F : Type) (Args : list Type) (R : Type) : Type := {
  call_op : F -> arrow Args (World -> result R * F * World);
  moved_from : F -> F
}.

(** The call expression [f(args...)] and its value; [f()] is the case of
    the empty pack. *)
Definition eval_call {F Args R} {CF : Callable F Args R}
    (f : F) (a : tuple Args) (w : World) : result R * F * World :=
  apply_pack (call_op f) a w.

Definition eval_call0 {F R} {CF : Callable F [] R}
    (f : F) (w : World) : result R * F * World :=
  eval_call f tt w.

(** The expression statement [f(args...);] on a callable object [f]:
    the call is logged, the body runs, the value is dropped.  The
    object and the memory keep what the body did to them, also when
    the body throws. *)
Definition call_stmt {F Args R} {CF : Callable F Args R}
    (f : F) (a : tuple Args) (s : machine) : result unit * F * machine :=
  let '(r, f', w') := eval_call f a (world s) in
  (discard r, f', Machine w' (log s ++ [Call f Args a])).

(** The same callable, returning [g v] wherever it returned [v]. *)
Definition map_value {A B : Type} (g : A -> B) (r : result A) : result B :=
  match r with
  | Returned a => Returned (g a)
  | Threw e => Threw e
  | Terminated => Terminated
  end.

Fixpoint arrow_map {Ts : list Type} {B C : Type} (g : B -> C)
    : arrow Ts B -> arrow Ts C :=
  match Ts with
  | [] => fun f => g f
  | T :: Ts' => fun f x => arrow_map g (f x)
  end.

Definition with_value {F Args R R'} (g : R -> R') (CF : Callable F Args R)
    : Callable F Args R' :=
  Build_Callable F Args R'
    (fun f =>
       arrow_map
         (fun (body : World -> result R * F * World) w =>
            let '(r, f', w') := body w in (map_value g r, f', w'))
         (call_op f))
    moved_from.

(** The log entry of a call without arguments. *)
Definition called {F : Type} (f : F) : event := Call f [] tt.

Definition returns {A : Type} (r : result A) : bool :=
  match r with Returned _ => true | _ => false end.

(** The documented precondition on a guard's action: calling it never
    throws and never ends the program. *)
Definition nothrow (F : Type) {R} {CF : Callable F [] R} : Prop :=
  forall (f : F) (w : World), returns (fst (fst (eval_call0 f w))) = true.

(** Value categories, and what initialising an [F] from
    [std::forward<T>(src)] gives: the new value, and what is left in
    [src] (a copy for an lvalue, a move for an rvalue). *)
Inductive category : Type := lvalue | rvalue.

Definition forward_init {F Args R} {CF : Callable F Args R}
    (c : category) (src : F) : F * F :=
  match c with
  | lvalue => (src, src)
  | rvalue => (src, moved_from src)
  end.

(** An argument expression of type [T]: its value category and the
    value of the object it denotes.  A callable that is to tell lvalues
    from rvalues takes [arg T] where it takes a [T]. *)
Record arg (T : Type) : Type := Arg { arg_category : category; arg_value : T }.
Arguments Arg {T} arg_category arg_value.
Arguments arg_category {T} a.
Arguments arg_value {T} a.

(** Constructing a [T] from an expression of type [T]: the copy
    constructor for an lvalue, the move constructor for an rvalue; both
    are user code. *)
Class Constructible (T : Type) : Type := {
  construct : category -> T -> World -> result T * World
}.

(** Function parameters [Args... args].  [pass] initialises them from
    the arguments of a call and yields the expressions [args...] that
    name them in the body of the function: lvalues, whatever the
    arguments were. *)
Class Passing (Args : list Type) : Type := {
  pass : tuple Args -> World -> result (tuple Args) * World
}.

#[export] Instance pass_nil : Passing [] :=
  Build_Passing [] (fun a w => (Returned a, w)).

(** Parameters of object type, initialised first to last (one of the
    orders the language allows). *)
#[export] Instance pass_cons {T : Type} {Ts : list Type}
    {CT : Constructible T} {PT : Passing Ts} : Passing (arg T :: Ts) :=
  Build_Passing (arg T :: Ts)
    (fun a w =>
       match construct (arg_category (fst a)) (arg_value (fst a)) w with
       | (Returned v, w1) =>
           match pass (snd a) w1 with
           | (Returned ps, w2) => (Returned (Arg lvalue v, ps), w2)
           | (Threw e, w2) => (Threw e, w2)
           | (Terminated, w2) => (Terminated, w2)
           end
       | (Threw e, w1) => (Threw e, w1)
       | (Terminated, w1) => (Terminated, w1)
       end).

(** Parameters whose initialisation cannot be observed and which the
    callable takes without regard to value category. *)
Definition pass_unobserved (Args : list Type) : Passing Args :=
  Build_Passing Args (fun a w => (Returned a, w)).

(** [{ Args... args(a...); f(args...); }]: the parameters are initialised
    from the arguments and the callable is called on the parameters.  An
    exception of the initialisation propagates and no call is made. *)
Definition call_passed {F Args R} {CF : Callable F Args R} {PA : Passing Args}
    (f : F) (a : tuple Args) (s : machine) : result unit * F * machine :=
  match pass a (world s) with
  | (Returned params, w1) => call_stmt f params (Machine w1 (log s))
  | (Threw e, w1) => (Threw e, f, Machine w1 (log s))
  | (Terminated, w1) => (Terminated, f, Machine w1 (log s))
  end.

(** Virtual dispatch.  A handle of static type [D] ([D&], [D*] or an
    owning pointer to [D]) refers to an object of some most derived type;
    the object carries the final overrider of [D]'s virtual call
    operator for that type. *)
Record handle (D : Type) (Args : list Type) : Type := Handle {
  dyn_type : Type;
  object : dyn_type;
  base_of : dyn_type -> D;
  final_overrider :
    dyn_type -> tuple Args -> machine -> result unit * dyn_type * machine
}.
Arguments Handle {D Args dyn_type} object base_of final_overrider.
Arguments object {D Args} h.
Arguments base_of {D Args} h.
Arguments final_overrider {D Args} h.

(** The call [h(args...)] through the handle runs the final overrider on
    the object the handle refers to. *)
Definition virtual_call {D Args} (h : handle D Args) (a : tuple Args)
    (s : machine) : result unit * handle D Args * machine :=
  let '(r, o, s') := final_overrider h (object h) a s in
  (r, Handle o (base_of h) (final_overrider h), s').

(** A polymorphic base [D] with a virtual call operator taking [Args]:
    [own_call] is [D]'s own body for it, absent when it is pure. *)
Class PolymorphicBase (D : Type) (Args : list Type) : Type := {
  own_call : option (D -> arrow Args (World -> result unit * D * World))
}.

(** A handle to an object whose most derived type is [D] itself.  There
    is such an object only when [D] is not abstract; a call through the
    handle then runs [D]'s own body. *)
Definition handle_of_base {D Args} {PD : PolymorphicBase D Args} (d : D)
    : option (handle D Args) :=
  match own_call with
  | Some body =>
      Some (Handle d (fun d => d)
              (fun d a s =>
                 let '(r, d', w') := apply_pack (body d) a (world s) in
                 (r, d', Machine w' (log s))))
  | None => None
  end.

(** [for (a : l) f(a...);]: call statements on one callable object, one
    per pack in [l], up to the first that does not return. *)
Fixpoint call_each {F Args R} {CF : Callable F Args R}
    (f : F) (l : list (tuple Args)) (s : machine)
    : result unit * F * machine :=
  match l with
  | [] => (Returned tt, f, s)
  | a :: l' =>
      match call_stmt f a s with
      | (Returned _, f', s') => call_each f' l' s'
      | (r, f', s') => (r, f', s')
      end
  end.

(** The loop with parameters in between:
    [for (a : l) { Args... args(a...); f(args...); }]. *)
Fixpoint call_each_passed {F Args R} {CF : Callable F Args R}
    {PA : Passing Args} (f : F) (l : list (tuple Args)) (s : machine)
    : result unit * F * machine :=
  match l with
  | [] => (Returned tt, f, s)
  | a :: l' =>
      match call_passed f a s with
      | (Returned _, f', s') => call_each_passed f' l' s'
      | (r, f', s') => (r, f', s')
      end
  end.

(** The same loop through a handle: [for (a : l) h(a...);]. *)
Fixpoint virtual_call_each {D Args} (h : handle D Args)
    (l : list (tuple Args)) (s : machine)
    : result unit * handle D Args * machine :=
  match l with
  | [] => (Returned tt, h, s)
  | a :: l' =>
      match virtual_call h a s with
      | (Returned _, h', s') => virtual_call_each h' l' s'
      | (r, h', s') => (r, h', s')
      end
  end.

(** [for (auto& fn : hs) ( *fn)();] over a container of handles. *)
Fixpoint call_all {D} (hs : list (handle D [])) (s : machine)
    : result unit * list (handle D []) * machine :=
  match hs with
  | [] => (Returned tt, [], s)
  | h :: hs' =>
      match virtual_call h tt s with
      | (Returned _, h', s') =>
          let '(r, hs'', s'') := call_all hs' s' in (r, h' :: hs'', s'')
      | (r, h', s') => (r, h' :: hs', s')
      end
  end.

End Semantics.

Arguments Returned {Exn A} a.
Arguments Threw {Exn A} e.
Arguments Terminated {Exn A}.
Arguments Machine {World} world log.
Arguments result Exn A : clear implicits.
Arguments machine World : clear implicits.
Arguments M Exn S A : clear implicits.
Arguments Callable World Exn F Args R : clear implicits.
Arguments handle World Exn D Args : clear implicits.
Arguments Handle {World Exn D Args dyn_type} object base_of final_overrider.
Arguments dyn_type {World Exn D Args} h.
Arguments object {World Exn D Args} h.
Arguments base_of {World Exn D Args} h.
Arguments final_overrider {World Exn D Args} h.
Arguments PolymorphicBase World Exn D Args : clear implicits.
Arguments Constructible World Exn T : clear implicits.
Arguments Arg {T} arg_category arg_value.
Arguments arg_category {T} a.
Arguments arg_value {T} a.
Arguments Passing World Exn Args : clear implicits.

Declare Scope stmt_scope.
Delimit Scope stmt_scope with stmt.
Notation "x <- m ;; k" := (bind m (fun x => k))
  (at level 100, m at next level, right associativity) : stmt_scope.
Notation "m ;; k" := (bind m (fun _ => k))
  (at level 100, right associativity) : stmt_scope.

End Lang.

(** ** The templates of namespace [fn_base] *)

Module fn_base.
Import Lang.

(** *** [generic_guard<F>] *)
Module Guard.
Section Guard.
Context {World Exn : Type} {F R : Type} {CF : Callable World Exn F [] R}.
Context {DF : Destructor F}.
Local Abbreviation machine := (machine World).
Local Abbreviation result := (result Exn).

Record generic_guard : Type := Build { m_fn : F }.

(** [generic_guard(T&& fn) : m_fn(std::forward<T>(fn))]; the second
    component is what the constructor leaves in [fn]. *)
Definition ctor (c : category) (fn : F) : generic_guard * F :=
  let '(v, rest) := forward_init c fn in (Build v, rest).

(** [~generic_guard() { m_fn(); }].  The destructor has no exception
    specification of its own, so it is [noexcept] exactly when the
    destructor of the member [F] is: then an exception of the action
    ends the program, otherwise it leaves the destructor.  The object is
    gone afterwards. *)
Definition dtor (this : generic_guard) (s : machine) : result unit * machine :=
  let '(r, _, s') := call_stmt (m_fn this) tt s in
  (leaving destructor_noexcept r, s').

(** The four defaulted members are memberwise.  A move returns the new
    (or assigned) object and what is left of [other]. *)
Definition copy_ctor (other : generic_guard) (s : machine)
    : result generic_guard * machine :=
  (Returned (Build (m_fn other)), s).

Definition move_ctor (other : generic_guard) (s : machine)
    : result (generic_guard * generic_guard) * machine :=
  (Returned (Build (m_fn other), Build (moved_from (m_fn other))), s).

Definition copy_assign (this other : generic_guard) (s : machine)
    : result generic_guard * machine :=
  (Returned (Build (m_fn other)), s).

Definition move_assign (this other : generic_guard) (s : machine)
    : result (generic_guard * generic_guard) * machine :=
  (Returned (Build (m_fn other), Build (moved_from (m_fn other))), s).

(** Stack unwinding: while an exception propagates the guards are
    destroyed in the order given, and a destructor that ends by an
    exception ends the program. *)
Fixpoint unwind (gs : list generic_guard) : M Exn machine unit :=
  match gs with
  | [] => ret tt
  | g :: gs' =>
      fun s =>
        match dtor g s with
        | (Returned _, s') => unwind gs' s'
        | (_, s') => (Terminated, s')
        end
  end.

(** Leaving a block destroys its guards, last declared first.  The
    list is in declaration order.  When a destructor lets an exception
    out, that exception propagates and the remaining guards are
    destroyed by unwinding. *)
Fixpoint destroy_all (gs : list generic_guard) : M Exn machine unit :=
  match gs with
  | [] => ret tt
  | g :: gs' =>
      fun s =>
        match dtor g s with
        | (Returned _, s') => destroy_all gs' s'
        | (Threw e, s') =>
            match unwind gs' s' with
            | (Returned _, s'') => (Threw e, s'')
            | (_, s'') => (Terminated, s'')
            end
        | (Terminated, s') => (Terminated, s')
        end
  end.

Definition leave_scope (locals : list generic_guard) : M Exn machine unit :=
  destroy_all (rev locals).

(** A block [{ ... }] whose automatic variables are guards.  The body
    says how it ended and which guards it had constructed by then, in
    declaration order; a normal end (falling off the end or [return])
    and a propagating exception both run the destructors.  After a
    normal end the block ends the way the destructors let it; an
    exception of the body propagates after unwinding.  After
    [std::terminate] nothing runs. *)
Definition block {A : Type}
    (body : machine -> result A * list generic_guard * machine)
    (s : machine) : result A * machine :=
  let '(r, locals, s1) := body s in
  match r with
  | Returned a =>
      match leave_scope locals s1 with
      | (Returned _, s2) => (Returned a, s2)
      | (Threw e, s2) => (Threw e, s2)
      | (Terminated, s2) => (Terminated, s2)
      end
  | Threw e =>
      match unwind (rev locals) s1 with
      | (Returned _, s2) => (Threw e, s2)
      | (_, s2) => (Terminated, s2)
      end
  | Terminated => (Terminated, s1)
  end.

(** [{ generic_guard<F> guard(g); body }], with a body that declares no
    further guard. *)
Definition guarded_block {A : Type} (c : category) (g : F)
    (body : machine -> result A * machine) : machine -> result A * machine :=
  block (fun s => let '(r, s1) := body s in (r, [fst (ctor c g)], s1)).

(** [{ generic_guard<F> a(g); generic_guard<F> b(std::move(a)); }] *)
Definition move_block (c : category) (g : F) (s : machine)
    : result unit * list generic_guard * machine :=
  let a := fst (ctor c g) in
  match move_ctor a s with
  | (Returned (b, a'), s') => (Returned tt, [a'; b], s')
  | (Threw e, s') => (Threw e, [a], s')
  | (Terminated, s') => (Terminated, [a], s')
  end.

(** Client code over guard variables of one block: a straight-line
    sequence of declarations and assignments.  Variables are numbered in
    declaration order; [CopyAssign i j] is [g_i = g_j], [MoveAssign i j]
    is [g_i = std::move(g_j)]. *)
Inductive op : Type :=
| Construct (c : category) (fn : F)
| CopyCtor (i : nat)
| MoveCtor (i : nat)
| CopyAssign (i j : nat)
| MoveAssign (i j : nat).

Definition in_scope (o : op) (n : nat) : bool :=
  match o with
  | Construct _ _ => true
  | CopyCtor i | MoveCtor i => Nat.ltb i n
  | CopyAssign i j => Nat.ltb i n && Nat.ltb j n
  | MoveAssign i j => Nat.ltb i n && Nat.ltb j n && negb (Nat.eqb i j)
  end.

Definition declares (o : op) : nat :=
  match o with
  | Construct _ _ | CopyCtor _ | MoveCtor _ => 1
  | _ => 0
  end.

Fixpoint well_scoped (ops : list op) (n : nat) : bool :=
  match ops with
  | [] => true
  | o :: os => in_scope o n && well_scoped os (declares o + n)
  end.

(** How many guard objects a sequence declares. *)
Fixpoint declarations (ops : list op) : nat :=
  match ops with
  | [] => 0
  | o :: os => declares o + declarations os
  end.

Definition update {A : Type} (ls : list generic_guard)
    (m : result A * machine) (k : A -> list generic_guard)
    : result unit * (list generic_guard * machine) :=
  match m with
  | (Returned a, s') => (Returned tt, (k a, s'))
  | (Threw e, s') => (Threw e, (ls, s'))
  | (Terminated, s') => (Terminated, (ls, s'))
  end.

Definition step (o : op) (st : list generic_guard * machine)
    : result unit * (list generic_guard * machine) :=
  let '(ls, s) := st in
  match o with
  | Construct c fn => (Returned tt, (ls ++ [fst (ctor c fn)], s))
  | CopyCtor i =>
      match ls !! i with
      | Some g => update ls (copy_ctor g s) (fun n => ls ++ [n])
      | None => (Returned tt, st)
      end
  | MoveCtor i =>
      match ls !! i with
      | Some g =>
          update ls (move_ctor g s) (fun p => (<[i:=snd p]> ls) ++ [fst p])
      | None => (Returned tt, st)
      end
  | CopyAssign i j =>
      match ls !! i, ls !! j with
      | Some gi, Some gj => update ls (copy_assign gi gj s) (fun n => <[i:=n]> ls)
      | _, _ => (Returned tt, st)
      end
  | MoveAssign i j =>
      match ls !! i, ls !! j with
      | Some gi, Some gj =>
          update ls (move_assign gi gj s)
            (fun p => <[j:=snd p]> (<[i:=fst p]> ls))
      | _, _ => (Returned tt, st)
      end
  end.

Fixpoint run (ops : list op) (st : list generic_guard * machine)
    : result unit * (list generic_guard * machine) :=
  match ops with
  | [] => (Returned tt, st)
  | o :: os =>
      match step o st with
      | (Returned _, st') => run os st'
      | (r, st') => (r, st')
      end
  end.

(** [{ ops }]: the block whose body is the sequence. *)
Definition client_block (ops : list op) : machine -> result unit * machine :=
  block (fun s => let '(r, (ls, s')) := run ops ([], s) in (r, ls, s')).
End Guard.
Arguments generic_guard F : clear implicits.
Arguments op F : clear implicits.
End Guard.

(** *** [functor_extension]: no data, a pure virtual call operator *)
Inductive functor_extension : Type := functor_extension_subobject.

#[export] Instance functor_extension_base {World Exn : Type}
  : PolymorphicBase World Exn functor_extension [] :=
  @Build_PolymorphicBase World Exn functor_extension [] None.

(** *** [generic_functor<F, D>], primary template (derives from [D]) *)
Module Primary.
Section Primary.
Context {World Exn : Type} {F R D : Type} {CF : Callable World Exn F [] R}.
Local Abbreviation machine := (machine World).
Local Abbreviation result := (result Exn).

Record generic_functor : Type := Build { base : D; m_func : F }.

(** [generic_functor(T&& fn, D_Args&& ... args)
      : D(std::forward<D_Args>(args) ...), m_func(std::forward<T>(fn))].
    [D_ctor] is the constructor of [D] that the arguments select; the
    base is initialised first. *)
Definition ctor {D_Args : list Type}
    (D_ctor : arrow D_Args (World -> result D * World))
    (c : category) (fn : F) (args : tuple D_Args) (s : machine)
    : result generic_functor * F * machine :=
  match apply_pack D_ctor args (world s) with
  | (Returned d, w') =>
      let '(v, rest) := forward_init c fn in
      (Returned (Build d v), rest, Machine w' (log s))
  | (Threw e, w') => (Threw e, fn, Machine w' (log s))
  | (Terminated, w') => (Terminated, fn, Machine w' (log s))
  end.

(** [virtual void operator()() override { m_func(); }] *)
Definition call (this : generic_functor) (_ : tuple []) (s : machine)
    : result unit * generic_functor * machine :=
  let '(r, f', s') := call_stmt (m_func this) tt s in
  (r, Build (base this) f', s').

(** The wrapper seen through a [D&] or [D*]. *)
Definition as_base (this : generic_functor) : handle World Exn D [] :=
  Handle this base call.

(** [{ generic_functor<F, D> w(fn, args...); D& d = w; d(); }]: the
    outcome, what is left in [fn], and the machine afterwards. *)
Definition make_and_call {D_Args : list Type}
    (D_ctor : arrow D_Args (World -> result D * World))
    (c : category) (fn : F) (args : tuple D_Args) (s : machine)
    : result unit * F * machine :=
  match ctor D_ctor c fn args s with
  | (Returned w, rest, s1) =>
      let '(r, _, s2) := virtual_call (as_base w) tt s1 in (r, rest, s2)
  | (Threw e, rest, s1) => (Threw e, rest, s1)
  | (Terminated, rest, s1) => (Terminated, rest, s1)
  end.
End Primary.
Arguments generic_functor F D : clear implicits.
End Primary.

(** *** A container of owned [D] handles, as in the example of
    [functor_extension]:
    [fn_instances.emplace_back(new generic_functor<decltype(fn)>(fn))] *)
Module Instances.
Section Instances.
Context {World Exn D : Type}.

(** What goes into the container: a wrapper over a callable type of its
    own. *)
Record instance : Type := Instance {
  fn_type : Type;
  fn_result : Type;
  fn_callable : Callable World Exn fn_type [] fn_result;
  fn_wrapper : Primary.generic_functor fn_type D
}.

(** The pointer to the new wrapper, converted to a pointer to [D]. *)
Definition emplace (x : instance) : handle World Exn D [] :=
  Primary.as_base (CF:=fn_callable x) (fn_wrapper x).

(** The stored callable of one instance, called as a statement; the
    instance keeps the state the call leaves. *)
Definition call_directly (x : instance) (s : machine World)
    : result Exn unit * instance * machine World :=
  let '(r, f', s') :=
    call_stmt (CF:=fn_callable x) (Primary.m_func (fn_wrapper x)) tt s in
  (r,
   Instance (fn_type x) (fn_result x) (fn_callable x)
     (Primary.Build (Primary.base (fn_wrapper x)) f'),
   s').

(** The stored callables called one after the other, up to the first
    that does not return. *)
Fixpoint call_all_directly (xs : list instance) (s : machine World)
    : result Exn unit * list instance * machine World :=
  match xs with
  | [] => (Returned tt, [], s)
  | x :: xs' =>
      match call_directly x s with
      | (Returned _, x', s') =>
          let '(r, xs'', s'') := call_all_directly xs' s' in
          (r, x' :: xs'', s'')
      | (r, x', s') => (r, x' :: xs', s')
      end
  end.
End Instances.
Arguments instance World Exn D : clear implicits.
End Instances.

(** *** [generic_functor<F, D>], specialization for a non-polymorphic [D] *)
Module Flat.
Section Flat.
Context {World Exn : Type} {F R : Type} {CF : Callable World Exn F [] R}.
Local Abbreviation machine := (machine World).
Local Abbreviation result := (result Exn).

Record generic_functor : Type := Build { m_func : F }.

(** [generic_functor(T&& fn) : m_func(std::forward<T>(fn))] *)
Definition ctor (c : category) (fn : F) : generic_functor * F :=
  let '(v, rest) := forward_init c fn in (Build v, rest).

(** [void operator()() { m_func(); }] *)
Definition call (this : generic_functor) (s : machine)
    : result unit * generic_functor * machine :=
  let '(r, f', s') := call_stmt (m_func this) tt s in
  (r, Build f', s').

(** The defaulted members, memberwise.  Overload resolution between
    them and the constructor template is not modelled: [copy_ctor] and
    [move_ctor] are the defaulted constructors themselves. *)
Definition copy_ctor (other : generic_functor) (s : machine)
    : result generic_functor * machine :=
  (Returned (Build (m_func other)), s).

Definition move_ctor (other : generic_functor) (s : machine)
    : result (generic_functor * generic_functor) * machine :=
  (Returned (Build (m_func other), Build (moved_from (m_func other))), s).

Definition copy_assign (this other : generic_functor) (s : machine)
    : result generic_functor * machine :=
  (Returned (Build (m_func other)), s).

Definition move_assign (this other : generic_functor) (s : machine)
    : result (generic_functor * generic_functor) * machine :=
  (Returned (Build (m_func other), Build (moved_from (m_func other))), s).

(** [~generic_functor() = default] *)
Definition dtor (this : generic_functor) (s : machine) : result unit * machine :=
  (Returned tt, s).

(** Client code over wrapper variables: a straight-line sequence of the
    operations the class offers.  Variables are numbered in declaration
    order; [CopyAssign i j] is [w_i = w_j], [MoveAssign i j] is
    [w_i = std::move(w_j)]. *)
Inductive op : Type :=
| Construct (c : category) (fn : F)
| Invoke (i : nat)
| CopyCtor (i : nat)
| MoveCtor (i : nat)
| CopyAssign (i j : nat)
| MoveAssign (i j : nat).

Definition is_invoke (o : op) : bool :=
  match o with Invoke _ => true | _ => false end.

(** How many calls of a wrapper a sequence contains. *)
Definition invocations (ops : list op) : nat :=
  length (List.filter is_invoke ops).

(** Names must be declared before use; moving a variable into itself is
    left out (what that leaves behind is up to [F]). *)
Definition in_scope (o : op) (n : nat) : bool :=
  match o with
  | Construct _ _ => true
  | Invoke i | CopyCtor i | MoveCtor i => Nat.ltb i n
  | CopyAssign i j => Nat.ltb i n && Nat.ltb j n
  | MoveAssign i j => Nat.ltb i n && Nat.ltb j n && negb (Nat.eqb i j)
  end.

(** How many variables an operation declares. *)
Definition declares (o : op) : nat :=
  match o with
  | Construct _ _ | CopyCtor _ | MoveCtor _ => 1
  | _ => 0
  end.

Fixpoint well_scoped (ops : list op) (n : nat) : bool :=
  match ops with
  | [] => true
  | o :: os => in_scope o n && well_scoped os (declares o + n)
  end.

Local Abbreviation locals := (list generic_functor).

Definition update {A : Type} (ls : locals) (m : result A * machine)
    (k : A -> locals) : result unit * (locals * machine) :=
  match m with
  | (Returned a, s') => (Returned tt, (k a, s'))
  | (Threw e, s') => (Threw e, (ls, s'))
  | (Terminated, s') => (Terminated, (ls, s'))
  end.

Definition step (o : op) (st : locals * machine)
    : result unit * (locals * machine) :=
  let '(ls, s) := st in
  match o with
  | Construct c fn => (Returned tt, (ls ++ [fst (ctor c fn)], s))
  | Invoke i =>
      match ls !! i with
      | Some w => let '(r, w', s') := call w s in (r, (<[i:=w']> ls, s'))
      | None => (Returned tt, st)
      end
  | CopyCtor i =>
      match ls !! i with
      | Some w => update ls (copy_ctor w s) (fun n => ls ++ [n])
      | None => (Returned tt, st)
      end
  | MoveCtor i =>
      match ls !! i with
      | Some w =>
          update ls (move_ctor w s) (fun p => (<[i:=snd p]> ls) ++ [fst p])
      | None => (Returned tt, st)
      end
  | CopyAssign i j =>
      match ls !! i, ls !! j with
      | Some wi, Some wj => update ls (copy_assign wi wj s) (fun n => <[i:=n]> ls)
      | _, _ => (Returned tt, st)
      end
  | MoveAssign i j =>
      match ls !! i, ls !! j with
      | Some wi, Some wj =>
          update ls (move_assign wi wj s)
            (fun p => <[j:=snd p]> (<[i:=fst p]> ls))
      | _, _ => (Returned tt, st)
      end
  end.

(** Running a sequence stops at the first operation that does not end
    normally.  Besides the outcome and the final state, [run] reports
    the operations that were started. *)
Fixpoint run (ops : list op) (st : locals * machine)
    : result unit * (locals * machine) * list op :=
  match ops with
  | [] => (Returned tt, st, [])
  | o :: os =>
      match step o st with
      | (Returned _, st') =>
          let '(r, st'', started) := run os st' in (r, st'', o :: started)
      | (r, st') => (r, st', [o])
      end
  end.

(** [for (k = 0; k < n; ++k) w();] *)
Fixpoint call_times (n : nat) (this : generic_functor) (s : machine)
    : result unit * generic_functor * machine :=
  match n with
  | 0 => (Returned tt, this, s)
  | S n' =>
      match call this s with
      | (Returned _, this', s') => call_times n' this' s'
      | (r, this', s') => (r, this', s')
      end
  end.

(** What one operation adds to the call log. *)
Definition step_calls (o : op) (ls : locals) : list event :=
  match o with
  | Invoke i =>
      match ls !! i with
      | Some w => [called (m_func w)]
      | None => []
      end
  | _ => []
  end.

End Flat.
Arguments op F : clear implicits.
Arguments generic_functor F : clear implicits.
End Flat.

(** *** [variadic_functor<F, D, Args...>] *)
Module Variadic.
Section Variadic.
Context {World Exn : Type} {F R D : Type} {Args : list Type}
  {CF : Callable World Exn F Args R} {PA : Passing World Exn Args}.
Local Abbreviation machine := (machine World).
Local Abbreviation result := (result Exn).

Record variadic_functor : Type := Build { base : D; m_func : F }.

(** [variadic_functor(T&& fn, D_Args&& ... args)
      : D(std::forward<D_Args>(args)...), m_func(std::forward<T>(fn))] *)
Definition ctor {D_Args : list Type}
    (D_ctor : arrow D_Args (World -> result D * World))
    (c : category) (fn : F) (args : tuple D_Args) (s : machine)
    : result variadic_functor * F * machine :=
  match apply_pack D_ctor args (world s) with
  | (Returned d, w') =>
      let '(v, rest) := forward_init c fn in
      (Returned (Build d v), rest, Machine w' (log s))
  | (Threw e, w') => (Threw e, fn, Machine w' (log s))
  | (Terminated, w') => (Terminated, fn, Machine w' (log s))
  end.

(** [virtual void operator()(Args...args) override { m_func(args...); }]
    The parameters [args] are initialised from the arguments of the
    call; the callable is called on the parameters themselves, which
    are lvalues (there is no [std::forward]). *)
Definition call (this : variadic_functor) (args : tuple Args) (s : machine)
    : result unit * variadic_functor * machine :=
  let '(r, f', s') := call_passed (m_func this) args s in
  (r, Build (base this) f', s').

Definition as_base (this : variadic_functor) : handle World Exn D Args :=
  Handle this base call.

(** [{ variadic_functor<F, D, Args...> w(fn, args...); D& d = w; d(a...); }] *)
Definition make_and_call {D_Args : list Type}
    (D_ctor : arrow D_Args (World -> result D * World))
    (c : category) (fn : F) (args : tuple D_Args) (a : tuple Args)
    (s : machine) : result unit * F * machine :=
  match ctor D_ctor c fn args s with
  | (Returned w, rest, s1) =>
      let '(r, _, s2) := virtual_call (as_base w) a s1 in (r, rest, s2)
  | (Threw e, rest, s1) => (Threw e, rest, s1)
  | (Terminated, rest, s1) => (Terminated, rest, s1)
  end.
End Variadic.
Arguments variadic_functor F D : clear implicits.
End Variadic.

(** *** Which [generic_functor] a template-id names *)
Module Select.
Section Select.
(** C++ types, with the two library facts the templates use:
    [std::is_polymorphic<D>::value] and the type [void]. *)
Context {Ty : Type} `{EqDecision Ty}.
Variable void : Ty.
Variable is_polymorphic : Ty -> bool.

(** [std::enable_if<B, T>::type]: the member exists only when [B] holds. *)
Definition enable_if (b : bool) (T : Ty) : option Ty :=
  if b then Some T else None.

Inductive specialization : Type := primary | flat.

(** [generic_functor<F, D, X>].  The partial specialization
    [generic_functor<F, D, typename std::enable_if<
       !std::is_polymorphic<D>::value>::type>]
    is used when its third argument can be formed and is [X]; otherwise
    the primary template is. *)
Definition instantiate (F D X : Ty) : specialization :=
  match enable_if (negb (is_polymorphic D)) void with
  | Some T => if decide (T = X) then flat else primary
  | None => primary
  end.

(** [generic_functor<F, D>]: the third parameter has the default [void]. *)
Definition generic_functor (F D : Ty) : specialization :=
  instantiate F D void.

(** The class the template-id stands for, given what the C++ types
    stand for. *)
Definition wrapper (denote : Ty -> Type) (F D : Ty) : Type :=
  match generic_functor F D with
  | primary => Primary.generic_functor (denote F) (denote D)
  | flat => Flat.generic_functor (denote F)
  end.
End Select.
End Select.

End fn_base.

(** ** Sample callables

    The memory is one counter; exceptions are the two below. *)
Module Samples.
Import Lang.

Inductive exn : Type := bad_function_call | runtime_error (code : nat).

(** [[&counter] { ++counter; }]: a reference capture, so a moved-from
    closure is the closure. *)
Inductive bump : Type := bump_closure.

#[export] Instance bump_callable : Callable nat exn bump [] unit :=
  @Build_Callable nat exn bump [] unit
    (fun f w => (Returned tt, f, S w))
    (fun f => f).

(** [[&counter, k] { counter += k; return counter; }] *)
Record adder : Type := Adder { addend : nat }.

#[export] Instance adder_callable : Callable nat exn adder [] nat :=
  @Build_Callable nat exn adder [] nat
    (fun f w => (Returned (w + addend f), f, w + addend f))
    (fun f => f).

(** [[n = 0] () mutable { return ++n; }]: the state is in the closure. *)
Record tally : Type := Tally { seen : nat }.

#[export] Instance tally_callable : Callable nat exn tally [] nat :=
  @Build_Callable nat exn tally [] nat
    (fun f w => (Returned (S (seen f)), Tally (S (seen f)), w))
    (fun f => f).

(** [[&counter] { ++counter; throw runtime_error(7); }] *)
Inductive thrower : Type := thrower_closure.

#[export] Instance thrower_callable : Callable nat exn thrower [] unit :=
  @Build_Callable nat exn thrower [] unit
    (fun f w => (Threw (runtime_error 7), f, S w))
    (fun f => f).

(** A [std::function<void()>] holding [bump] or nothing: calling the
    empty one throws, and moving one out leaves it empty. *)
Definition slot : Type := option bump.

#[export] Instance slot_callable : Callable nat exn slot [] unit :=
  @Build_Callable nat exn slot [] unit
    (fun f w =>
       match f with
       | Some _ => (Returned tt, f, S w)
       | None => (Threw bad_function_call, f, w)
       end)
    (fun _ => None).

(** [[&counter] (unsigned a, bool up) {
       if (!up && counter < a) throw runtime_error(1);
       counter = up ? counter + a : counter - a; }] *)
Inductive shift : Type := shift_closure.

#[export] Instance shift_callable
  : Callable nat exn shift [nat : Type; bool : Type] unit :=
  @Build_Callable nat exn shift [nat : Type; bool : Type] unit
    (fun f a up w =>
       if up then (Returned tt, f, w + a)
       else if Nat.ltb w a then (Threw (runtime_error 1), f, w)
       else (Returned tt, f, w - a))
    (fun f => f).

(** Passing an [unsigned] and a [bool]: nothing to observe. *)
#[export] Instance shift_passing
  : Passing nat exn [nat : Type; bool : Type] :=
  pass_unobserved [nat : Type; bool : Type].

(** [struct probe { probe(const probe&) { ++counter; } probe(probe&&) {} };]
    The copy constructor counts, the move constructor does nothing. *)
Inductive probe : Type := probe_object.

#[export] Instance probe_constructible : Constructible nat exn probe :=
  @Build_Constructible nat exn probe
    (fun c v w =>
       match c with
       | lvalue => (Returned v, S w)
       | rvalue => (Returned v, w)
       end).

(** [struct chooser { void operator()(probe&) { counter += 10; }
                      void operator()(probe&&) { counter += 100; } };] *)
Inductive chooser : Type := chooser_object.

#[export] Instance chooser_callable
  : Callable nat exn chooser [arg probe : Type] unit :=
  @Build_Callable nat exn chooser [arg probe : Type] unit
    (fun f a w =>
       match arg_category a with
       | lvalue => (Returned tt, f, w + 10)
       | rvalue => (Returned tt, f, w + 100)
       end)
    (fun f => f).

(** [struct probe_sink { virtual void operator()(probe) = 0; };] *)
Inductive probe_sink : Type := probe_sink_subobject.

(** A [std::function<void()>]-like holder whose destructor is declared
    [noexcept(false)]: holding [bump] or nothing, the empty one throws
    when called. *)
Inductive loud : Type := loud_holding | loud_empty.

#[export] Instance loud_callable : Callable nat exn loud [] unit :=
  @Build_Callable nat exn loud [] unit
    (fun f w =>
       match f with
       | loud_holding => (Returned tt, f, S w)
       | loud_empty => (Threw bad_function_call, f, w)
       end)
    (fun _ => loud_empty).

#[export] Instance loud_destructor : Destructor loud :=
  {| destructor_noexcept := false |}.

(** A polymorphic base whose own call operator does nothing. *)
Inductive quiet_base : Type := quiet_base_subobject.

Definition quiet_call (d : quiet_base) (w : nat)
    : result exn unit * quiet_base * nat :=
  (Returned tt, d, w).

#[export] Instance quiet_base_polymorphic
  : PolymorphicBase nat exn quiet_base [] :=
  @Build_PolymorphicBase nat exn quiet_base [] (Some quiet_call).

(** Client code for the flat wrapper:
    [w0(bump); w0(); w1(w0); w1(); w2(std::move(w1)); w0 = w2;
     w1 = std::move(w0); w2();] *)
Definition client : list (fn_base.Flat.op bump) :=
  [fn_base.Flat.Construct lvalue bump_closure;
   fn_base.Flat.Invoke 0;
   fn_base.Flat.CopyCtor 0;
   fn_base.Flat.Invoke 1;
   fn_base.Flat.MoveCtor 1;
   fn_base.Flat.CopyAssign 0 2;
   fn_base.Flat.MoveAssign 1 0;
   fn_base.Flat.Invoke 2].

Definition start : machine nat := Machine 0 [].

(** Client code for the guard:
    [{ g0(bump); g1(g0); g2(std::move(g1)); g0 = g2; g1 = std::move(g0); }] *)
Definition guard_client : list (fn_base.Guard.op bump) :=
  [fn_base.Guard.Construct lvalue bump_closure;
   fn_base.Guard.CopyCtor 0;
   fn_base.Guard.MoveCtor 1;
   fn_base.Guard.CopyAssign 0 2;
   fn_base.Guard.MoveAssign 1 0].
End Samples.

(** ** Properties of [generic_guard] *)

Section GuardProperties.
Import Lang fn_base.
Context {World Exn : Type} {F R : Type} {CF : Callable World Exn F [] R}.
Context {DF : Destructor F}.

Lemma guard_dtor_unfold (this : Guard.generic_guard F) (s : machine World) :
  Guard.dtor this s =
    (leaving destructor_noexcept
       (discard (fst (fst (eval_call0 (Guard.m_fn this) (world s))))),
     Machine (snd (eval_call0 (Guard.m_fn this) (world s)))
             (log s ++ [called (Guard.m_fn this)])).
Proof.
  unfold Guard.dtor, call_stmt, eval_call0.
  destruct (eval_call (Args:=[]) (Guard.m_fn this) tt (world s)) as [[r f'] w'];
    reflexivity.
Qed.

Lemma guard_dtor_log (this : Guard.generic_guard F) (s : machine World) :
  log (snd (Guard.dtor this s)) = log s ++ [called (Guard.m_fn this)].
Proof. rewrite guard_dtor_unfold; reflexivity. Qed.

Lemma guard_dtor_nothrow (this : Guard.generic_guard F) (s : machine World) :
  nothrow F -> fst (Guard.dtor this s) = Returned tt.
Proof.
  intros Hn; rewrite guard_dtor_unfold.
  specialize (Hn (Guard.m_fn this) (world s)).
  destruct (fst (fst (eval_call0 (Guard.m_fn this) (world s))));
    [destruct destructor_noexcept; reflexivity
    | discriminate Hn | discriminate Hn].
Qed.

Lemma unwind_nothrow (gs : list (Guard.generic_guard F)) :
  nothrow F ->
  forall s : machine World,
    fst (Guard.unwind gs s) = Returned tt /\
    log (snd (Guard.unwind gs s)) =
      log s ++ map (fun g => called (Guard.m_fn g)) gs.
Proof.
  intros Hn; induction gs as [|g gs IH]; intros s; cbn [Guard.unwind map].
  - cbn; split; [reflexivity | now rewrite app_nil_r].
  - pose proof (guard_dtor_nothrow g s Hn) as Hr.
    pose proof (guard_dtor_log g s) as Hl.
    destruct (Guard.dtor g s) as [r s1]; cbn [fst snd] in Hr, Hl; subst r.
    destruct (IH s1) as [IHr IHl]; split; [exact IHr |].
    rewrite IHl, Hl, <- app_assoc; reflexivity.
Qed.

Lemma destroy_all_nothrow (gs : list (Guard.generic_guard F)) :
  nothrow F ->
  forall s : machine World,
    fst (Guard.destroy_all gs s) = Returned tt /\
    log (snd (Guard.destroy_all gs s)) =
      log s ++ map (fun g => called (Guard.m_fn g)) gs.
Proof.
  intros Hn; induction gs as [|g gs IH]; intros s;
    cbn [Guard.destroy_all map].
  - cbn; split; [reflexivity | now rewrite app_nil_r].
  - pose proof (guard_dtor_nothrow g s Hn) as Hr.
    pose proof (guard_dtor_log g s) as Hl.
    destruct (Guard.dtor g s) as [r s1]; cbn [fst snd] in Hr, Hl; subst r.
    destruct (IH s1) as [IHr IHl]; split; [exact IHr |].
    rewrite IHl, Hl, <- app_assoc; reflexivity.
Qed.

(** C4. Destroying a guard calls the action it holds exactly once,
    whatever the guard's state: the log grows by the one call of
    [m_fn], the memory is what that call leaves, and the destructor ends
    the way the call does (an exception of the action ends the program
    when the destructor is [noexcept], and leaves the destructor when
    the destructor of [F] is [noexcept(false)]).  A guard built from [g]
    holds [g]. *)
Theorem guard_destruction_invokes_action_once :
  (forall (c : category) (g : F), Guard.m_fn (fst (Guard.ctor c g)) = g) /\
  (forall (this : Guard.generic_guard F) (s : machine World),
     log (snd (Guard.dtor this s)) = log s ++ [called (Guard.m_fn this)] /\
     world (snd (Guard.dtor this s)) = snd (eval_call0 (Guard.m_fn this) (world s)) /\
     fst (Guard.dtor this s) =
       leaving destructor_noexcept
         (discard (fst (fst (eval_call0 (Guard.m_fn this) (world s)))))).
Proof.
  split.
  - intros [] g; reflexivity.
  - intros this s; rewrite guard_dtor_unfold; cbn; auto.
Qed.

Lemma guard_block_exit {A : Type}
    (body : machine World ->
            result Exn A * list (Guard.generic_guard F) * machine World)
    (s : machine World) :
  nothrow F ->
  fst (fst (body s)) <> Terminated ->
  fst (Guard.block body s) = fst (fst (body s)) /\
  log (snd (Guard.block body s)) =
    log (snd (body s)) ++
    map (fun g => called (Guard.m_fn g)) (rev (snd (fst (body s)))).
Proof.
  intros Hn Hr; unfold Guard.block, Guard.leave_scope.
  destruct (body s) as [[r locals] s1]; cbn [fst snd] in *.
  destruct r as [a|e|]; [| | contradiction].
  - destruct (destroy_all_nothrow (rev locals) Hn s1) as [Hd Hl].
    destruct (Guard.destroy_all (rev locals) s1) as [rd s2];
      cbn [fst snd] in *; subst rd.
    split; [reflexivity | exact Hl].
  - destruct (unwind_nothrow (rev locals) Hn s1) as [Hd Hl].
    destruct (Guard.unwind (rev locals) s1) as [rd s2];
      cbn [fst snd] in *; subst rd.
    split; [reflexivity | exact Hl].
Qed.

(** C1, as the code has it. A block that owns one guard built from [g]
    calls [g] exactly once on the way out, whether its body ended
    normally or by a propagating exception.  A guard that was moved from
    is not exempt: the move leaves [moved_from g] in it, and its
    destructor calls that, while the guard moved to calls [g].  When the
    action does not throw (the documented precondition), a block ends
    the way its body ended and makes exactly one call per guard instance
    it owns, last declared first; after [b(std::move(a))] these are the
    call of [g] by [b] and the call by [a] of what the move left. *)
Theorem guard_scope_exit_invokes_every_instance :
  (forall (A : Type) (c : category) (g : F)
          (body : machine World -> result Exn A * machine World)
          (s : machine World),
      fst (body s) <> Terminated ->
      log (snd (Guard.guarded_block c g body s)) =
        log (snd (body s)) ++ [called g] /\
      world (snd (Guard.guarded_block c g body s)) =
        snd (eval_call0 g (world (snd (body s))))) /\
  (forall (c : category) (g : F) (s : machine World),
      Guard.move_ctor (fst (Guard.ctor c g)) s =
        (Returned (Guard.Build g, Guard.Build (moved_from g)), s) /\
      log (snd (Guard.dtor (Guard.Build g) s)) = log s ++ [called g] /\
      log (snd (Guard.dtor (Guard.Build (moved_from g)) s)) =
        log s ++ [called (moved_from g)]) /\
  (nothrow F ->
   (forall (A : Type)
           (body : machine World ->
                   result Exn A * list (Guard.generic_guard F) * machine World)
           (s : machine World),
       fst (fst (body s)) <> Terminated ->
       fst (Guard.block body s) = fst (fst (body s)) /\
       log (snd (Guard.block body s)) =
         log (snd (body s)) ++
         map (fun g => called (Guard.m_fn g)) (rev (snd (fst (body s))))) /\
   (forall (c : category) (g : F) (s : machine World),
       fst (Guard.block (Guard.move_block c g) s) = Returned tt /\
       log (snd (Guard.block (Guard.move_block c g) s)) =
         log s ++ [called g; called (moved_from g)])).
Proof.
  assert (Hctor : forall c g, fst (Guard.ctor c g) = Guard.Build g)
    by (intros [] g; reflexivity).
  split; [| split].
  - intros A c g body s Hr.
    unfold Guard.guarded_block, Guard.block, Guard.leave_scope.
    rewrite Hctor.
    destruct (body s) as [r s1];
      cbn [fst snd rev app Guard.destroy_all Guard.unwind] in *.
    unfold ret. rewrite guard_dtor_unfold.
    destruct r; [| | contradiction];
      destruct (leaving _ _); cbn; split; reflexivity.
  - intros c g s; rewrite Hctor; repeat split.
    + exact (guard_dtor_log (Guard.Build g) s).
    + exact (guard_dtor_log (Guard.Build (moved_from g)) s).
  - intros Hn; split.
    + intros A body s Hr; apply guard_block_exit; assumption.
    + intros c g s.
      assert (Hb : Guard.move_block c g s =
                   (Returned tt,
                    [Guard.Build (moved_from g); Guard.Build g], s))
        by (unfold Guard.move_block; rewrite Hctor; reflexivity).
      destruct (guard_block_exit (Guard.move_block c g) s Hn) as [H1 H2].
      * rewrite Hb; discriminate.
      * rewrite H1, H2, Hb; split; reflexivity.
Qed.

(** C10. Assigning to a guard, by copy or by move, touches neither the
    memory nor the call log, and leaves the target holding the action of
    the right-hand side; destroying the target then makes the one call
    of that action.  The action the target held before appears nowhere
    in the outcome. *)
Theorem guard_assignment_never_runs_replaced_action
    (this other : Guard.generic_guard F) (s : machine World) :
  let target := Guard.Build (Guard.m_fn other) in
  Guard.copy_assign (Exn:=Exn) this other s = (Returned target, s) /\
  Guard.move_assign this other s =
    (Returned (target, Guard.Build (moved_from (Guard.m_fn other))), s) /\
  log (snd (Guard.dtor target s)) = log s ++ [called (Guard.m_fn other)] /\
  world (snd (Guard.dtor target s)) =
    snd (eval_call0 (Guard.m_fn other) (world s)).
Proof.
  cbn; repeat split.
  - exact (guard_dtor_log (Guard.Build (Guard.m_fn other)) s).
  - rewrite guard_dtor_unfold; reflexivity.
Qed.

End GuardProperties.

(** ** Properties of the flat [generic_functor] *)

Section FlatProperties.
Import Lang fn_base.
Context {World Exn : Type} {F R : Type} {CF : Callable World Exn F [] R}.

Lemma flat_call_unfold (this : Flat.generic_functor F) (s : machine World) :
  Flat.call this s =
    (discard (fst (fst (eval_call0 (Flat.m_func this) (world s)))),
     Flat.Build (snd (fst (eval_call0 (Flat.m_func this) (world s)))),
     Machine (snd (eval_call0 (Flat.m_func this) (world s)))
             (log s ++ [called (Flat.m_func this)])).
Proof.
  unfold Flat.call, call_stmt, eval_call0.
  destruct (eval_call (Args:=[]) (Flat.m_func this) tt (world s))
    as [[r f'] w']; reflexivity.
Qed.

(** C3. A flat wrapper built from [f] holds [f], and one call of the
    wrapper is one call [f()]: the same outcome (with the value
    dropped), the same memory afterwards, the callable left in the
    wrapper in the state the call left it, and one entry for [f] in the
    call log. *)
Theorem flat_functor_call_is_one_direct_call
    (c : category) (f : F) (s : machine World) :
  let w := fst (Flat.ctor c f) in
  Flat.m_func w = f /\
  Flat.call w s =
    (fst (fst (call_stmt (Args:=[]) f tt s)),
     Flat.Build (snd (fst (call_stmt (Args:=[]) f tt s))),
     snd (call_stmt (Args:=[]) f tt s)) /\
  fst (fst (Flat.call w s)) = discard (fst (fst (eval_call0 f (world s)))) /\
  world (snd (Flat.call w s)) = snd (eval_call0 f (world s)) /\
  log (snd (Flat.call w s)) = log s ++ [called f].
Proof.
  assert (Hw : fst (Flat.ctor c f) = Flat.Build f) by (destruct c; reflexivity).
  cbv zeta; rewrite Hw.
  unfold Flat.call, call_stmt, eval_call0; cbn [Flat.m_func].
  destruct (eval_call (Args:=[]) f tt (world s)) as [[r f'] w'].
  repeat split.
Qed.

Lemma flat_step_machine (o : Flat.op F) (ls : list (Flat.generic_functor F))
    (s : machine World) :
  Flat.is_invoke o = false -> snd (snd (Flat.step o (ls, s))) = s.
Proof.
  destruct o as [c fn|i|i|i|i j|i j]; simpl; intros Ho; try discriminate;
    repeat (destruct (_ !! _)); try reflexivity.
Qed.

Lemma flat_step_log (o : Flat.op F) (ls : list (Flat.generic_functor F))
    (s : machine World) :
  log (snd (snd (Flat.step o (ls, s)))) = log s ++ Flat.step_calls o ls.
Proof.
  destruct (Flat.is_invoke o) eqn:Ho.
  - destruct o as [c fn|i|i|i|i j|i j]; try discriminate; simpl.
    destruct (ls !! i) as [w|]; [| now rewrite app_nil_r].
    rewrite flat_call_unfold; reflexivity.
  - rewrite flat_step_machine by assumption.
    destruct o; try discriminate; simpl; now rewrite app_nil_r.
Qed.

Lemma flat_step_calls_length (o : Flat.op F) (ls : list (Flat.generic_functor F)) :
  Flat.in_scope o (length ls) = true ->
  length (Flat.step_calls o ls) = if Flat.is_invoke o then 1 else 0.
Proof.
  destruct o as [c fn|i|i|i|i j|i j]; simpl; try reflexivity.
  intros Hi; apply Nat.ltb_lt in Hi.
  destruct (lookup_lt_is_Some_2 ls i Hi) as [w ->]; reflexivity.
Qed.

Lemma flat_step_locals (o : Flat.op F) (ls : list (Flat.generic_functor F))
    (s : machine World) :
  Flat.in_scope o (length ls) = true ->
  fst (Flat.step o (ls, s)) = Returned tt ->
  length (fst (snd (Flat.step o (ls, s)))) = Flat.declares o + length ls.
Proof.
  destruct o as [c fn|i|i|i|i j|i j]; simpl; intros Hi Hr.
  - rewrite length_app; simpl; lia.
  - destruct (ls !! i) as [w|]; [| reflexivity].
    rewrite flat_call_unfold; simpl. apply length_insert.
  - apply Nat.ltb_lt in Hi.
    destruct (lookup_lt_is_Some_2 ls i Hi) as [w ->]; simpl.
    rewrite length_app; simpl; lia.
  - apply Nat.ltb_lt in Hi.
    destruct (lookup_lt_is_Some_2 ls i Hi) as [w ->]; simpl.
    rewrite length_app, length_insert; simpl; lia.
  - destruct (ls !! i), (ls !! j); simpl; rewrite ?length_insert; reflexivity.
  - destruct (ls !! i), (ls !! j); simpl; rewrite ?length_insert; reflexivity.
Qed.

Lemma flat_run_counts (ops : list (Flat.op F)) :
  forall (ls : list (Flat.generic_functor F)) (s : machine World),
    Flat.well_scoped ops (length ls) = true ->
    length (log (snd (snd (fst (Flat.run ops (ls, s)))))) =
      length (log s) + Flat.invocations (snd (Flat.run ops (ls, s))) /\
    (fst (fst (Flat.run ops (ls, s))) = Returned tt ->
     snd (Flat.run ops (ls, s)) = ops).
Proof.
  induction ops as [|o os IH]; intros ls s Hw.
  - split; [cbn; lia | reflexivity].
  - cbn in Hw; apply andb_prop in Hw as [Ho Hos].
    pose proof (flat_step_log o ls s) as Hl.
    pose proof (flat_step_calls_length o ls Ho) as Hc.
    pose proof (flat_step_locals o ls s Ho) as Hn.
    cbn [Flat.run].
    destruct (Flat.step o (ls, s)) as [r [ls1 s1]]; cbn [fst snd] in Hl, Hn.
    assert (Hlen : length (log s1) =
                   length (log s) + (if Flat.is_invoke o then 1 else 0))
      by (rewrite Hl, length_app, Hc; reflexivity).
    destruct r as [[]|e|].
    + specialize (Hn eq_refl). rewrite <- Hn in Hos.
      destruct (IH ls1 s1 Hos) as [IH1 IH2].
      destruct (Flat.run os (ls1, s1)) as [[r2 st2] started].
      cbn [fst snd] in *; split.
      * rewrite IH1, Hlen. unfold Flat.invocations; cbn [List.filter].
        destruct (Flat.is_invoke o); cbn [length]; lia.
      * intros Hr; rewrite IH2 by assumption; reflexivity.
    + cbn [fst snd]; split; [| discriminate].
      rewrite Hlen. unfold Flat.invocations; cbn [List.filter].
      destruct (Flat.is_invoke o); cbn [length]; lia.
    + cbn [fst snd]; split; [| discriminate].
      rewrite Hlen. unfold Flat.invocations; cbn [List.filter].
      destruct (Flat.is_invoke o); cbn [length]; lia.
Qed.


End FlatProperties.


(** ** Properties of the wrappers that derive from [D] *)

Section DispatchProperties.
Import Lang fn_base.
Context {World Exn : Type} {D : Type}.

Lemma primary_call_unfold {F R} {CF : Callable World Exn F [] R}
    (this : Primary.generic_functor F D) (s : machine World) :
  Primary.call this tt s =
    (discard (fst (fst (eval_call0 (Primary.m_func this) (world s)))),
     Primary.Build (Primary.base this)
       (snd (fst (eval_call0 (Primary.m_func this) (world s)))),
     Machine (snd (eval_call0 (Primary.m_func this) (world s)))
             (log s ++ [called (Primary.m_func this)])).
Proof.
  unfold Primary.call, call_stmt, eval_call0.
  destruct (eval_call (Args:=[]) (Primary.m_func this) tt (world s))
    as [[r f'] w']; reflexivity.
Qed.

Lemma call_passed_unfold {F R Args} {CF : Callable World Exn F Args R}
    {PA : Passing World Exn Args} (f : F) (a : tuple Args)
    (s : machine World) :
  call_passed f a s =
    match pass a (world s) with
    | (Returned ps, w1) =>
        (discard (fst (fst (eval_call f ps w1))),
         snd (fst (eval_call f ps w1)),
         Machine (snd (eval_call f ps w1)) (log s ++ [Call f Args ps]))
    | (Threw e, w1) => (Threw e, f, Machine w1 (log s))
    | (Terminated, w1) => (Terminated, f, Machine w1 (log s))
    end.
Proof.
  unfold call_passed, call_stmt.
  destruct (pass a (world s)) as [[ps|e|] w1]; try reflexivity.
  cbn [world log].
  destruct (eval_call f ps w1) as [[r f'] w']; reflexivity.
Qed.

Lemma variadic_call_unfold {F R Args} {CF : Callable World Exn F Args R}
    {PA : Passing World Exn Args}
    (this : Variadic.variadic_functor F D) (a : tuple Args)
    (s : machine World) :
  Variadic.call this a s =
    (fst (fst (call_passed (Variadic.m_func this) a s)),
     Variadic.Build (Variadic.base this)
       (snd (fst (call_passed (Variadic.m_func this) a s))),
     snd (call_passed (Variadic.m_func this) a s)).
Proof.
  unfold Variadic.call.
  destruct (call_passed (Variadic.m_func this) a s) as [[r f'] s'];
    reflexivity.
Qed.

(** C6. Whatever the polymorphic base [D] is and whatever body [D]
    itself may have for the call operator, a call through a [D] handle
    to a [generic_functor<F, D>] is the call of the callable the wrapper
    holds: its outcome, its effect on the memory, and one log entry for
    it.  Two wrappers over different callables, held through two [D]
    handles and called one after the other, each make the call of their
    own callable. *)
Theorem virtual_call_dispatches_to_stored_callable
    {F1 R1} {CF1 : Callable World Exn F1 [] R1}
    {F2 R2} {CF2 : Callable World Exn F2 [] R2} :
  (forall (w : Primary.generic_functor F1 D) (s : machine World),
     virtual_call (Primary.as_base w) tt s =
       (discard (fst (fst (eval_call0 (Primary.m_func w) (world s)))),
        Primary.as_base
          (Primary.Build (Primary.base w)
             (snd (fst (eval_call0 (Primary.m_func w) (world s))))),
        Machine (snd (eval_call0 (Primary.m_func w) (world s)))
                (log s ++ [called (Primary.m_func w)]))) /\
  (forall (w1 : Primary.generic_functor F1 D)
          (w2 : Primary.generic_functor F2 D) (s : machine World),
     let s1 := snd (virtual_call (Primary.as_base w1) tt s) in
     let s2 := snd (virtual_call (Primary.as_base w2) tt s1) in
     world s1 = snd (eval_call0 (Primary.m_func w1) (world s)) /\
     log s1 = log s ++ [called (Primary.m_func w1)] /\
     world s2 = snd (eval_call0 (Primary.m_func w2) (world s1)) /\
     log s2 =
       log s ++ [called (Primary.m_func w1); called (Primary.m_func w2)]).
Proof.
  assert (H : forall F R (CF : Callable World Exn F [] R)
                     (w : Primary.generic_functor F D) (s : machine World),
             virtual_call (Primary.as_base w) tt s =
               (discard (fst (fst (eval_call0 (Primary.m_func w) (world s)))),
                Primary.as_base
                  (Primary.Build (Primary.base w)
                     (snd (fst (eval_call0 (Primary.m_func w) (world s))))),
                Machine (snd (eval_call0 (Primary.m_func w) (world s)))
                        (log s ++ [called (Primary.m_func w)]))).
  { intros F R CF w s. unfold virtual_call, Primary.as_base.
    cbn [final_overrider object base_of].
    rewrite primary_call_unfold; reflexivity. }
  split; [apply H |].
  intros w1 w2 s; cbv zeta.
  rewrite (H _ _ CF2 w2), (H _ _ CF1 w1); cbn [snd world log].
  rewrite <- app_assoc; repeat split.
Qed.


End DispatchProperties.

(** ** Failures and values of the stored callable *)

Section TransparencyProperties.
Import Lang fn_base.
Context {World Exn : Type} {D : Type}.
Context {F R : Type} {CF : Callable World Exn F [] R}.
Context {G S : Type} {Args : list Type} {CG : Callable World Exn G Args S}.
Context {PG : Passing World Exn Args}.

(** C7. When the stored callable throws [e], the call of the wrapper
    ends by throwing the same [e], with the memory as the callable left
    it and the one call in the log: nothing is caught, replaced or tried
    again.  This holds for the flat wrapper, the wrapper derived from
    [D] and the variadic wrapper, whose callable is called on the
    parameters [ps] initialised from the arguments. *)
Theorem wrapper_call_propagates_exception (e : Exn) :
  (forall (w : Flat.generic_functor F) (s : machine World),
     fst (fst (eval_call0 (Flat.m_func w) (world s))) = Threw e ->
     fst (fst (Flat.call w s)) = Threw e /\
     world (snd (Flat.call w s)) = snd (eval_call0 (Flat.m_func w) (world s)) /\
     log (snd (Flat.call w s)) = log s ++ [called (Flat.m_func w)]) /\
  (forall (w : Primary.generic_functor F D) (s : machine World),
     fst (fst (eval_call0 (Primary.m_func w) (world s))) = Threw e ->
     fst (fst (Primary.call w tt s)) = Threw e /\
     world (snd (Primary.call w tt s)) =
       snd (eval_call0 (Primary.m_func w) (world s)) /\
     log (snd (Primary.call w tt s)) = log s ++ [called (Primary.m_func w)]) /\
  (forall (w : Variadic.variadic_functor G D) (a ps : tuple Args)
          (s : machine World) (w1 : World),
     pass a (world s) = (Returned ps, w1) ->
     fst (fst (eval_call (Variadic.m_func w) ps w1)) = Threw e ->
     fst (fst (Variadic.call w a s)) = Threw e /\
     world (snd (Variadic.call w a s)) =
       snd (eval_call (Variadic.m_func w) ps w1) /\
     log (snd (Variadic.call w a s)) =
       log s ++ [Call (Variadic.m_func w) Args ps]).
Proof.
  split; [| split].
  - intros w s He; rewrite flat_call_unfold; cbn [fst snd world log].
    rewrite He; repeat split.
  - intros w s He; rewrite primary_call_unfold; cbn [fst snd world log].
    rewrite He; repeat split.
  - intros w a ps s w1 Hp He.
    rewrite variadic_call_unfold, call_passed_unfold, Hp.
    cbn [fst snd world log]. rewrite He; repeat split.
Qed.

Lemma apply_pack_arrow_map {Ts : list Type} {B C : Type} (g : B -> C)
    (f : arrow Ts B) (a : tuple Ts) :
  apply_pack (arrow_map g f) a = g (apply_pack f a).
Proof.
  induction Ts as [|T Ts IH]; cbn; [reflexivity | apply IH].
Qed.

Lemma discard_map_value {A B : Type} (g : A -> B) (r : result Exn A) :
  discard (map_value g r) = discard r.
Proof. destruct r; reflexivity. Qed.

Lemma call_stmt_with_value {H T T' : Type} {Ts : list Type} (g : T -> T')
    (CH : Callable World Exn H Ts T) (f : H) (a : tuple Ts)
    (s : machine World) :
  call_stmt (CF:=with_value g CH) f a s = call_stmt (CF:=CH) f a s.
Proof.
  unfold call_stmt, eval_call, with_value; cbn [call_op].
  rewrite apply_pack_arrow_map.
  destruct (apply_pack (call_op f) a (world s)) as [[r f'] w'].
  rewrite discard_map_value; reflexivity.
Qed.

(** C9. The call operator of each wrapper yields no value: when the
    stored callable returns [v] the wrapper returns the unit value, and
    replacing the callable by one that returns [g v] instead, whatever
    [g] is, changes nothing in what the call of the wrapper does.  (The
    variadic wrapper calls its callable on the parameters initialised
    from the arguments; when that initialisation fails no value is
    produced at all.) *)
Theorem wrapper_call_discards_value :
  (forall (w : Flat.generic_functor F) (s : machine World),
     fst (fst (Flat.call w s)) =
       discard (fst (fst (eval_call0 (Flat.m_func w) (world s))))) /\
  (forall (w : Primary.generic_functor F D) (s : machine World),
     fst (fst (Primary.call w tt s)) =
       discard (fst (fst (eval_call0 (Primary.m_func w) (world s))))) /\
  (forall (w : Variadic.variadic_functor G D) (a : tuple Args)
          (s : machine World),
     fst (fst (Variadic.call w a s)) =
       match pass a (world s) with
       | (Returned ps, w1) =>
           discard (fst (fst (eval_call (Variadic.m_func w) ps w1)))
       | (Threw e, _) => Threw e
       | (Terminated, _) => Terminated
       end) /\
  (forall (R' : Type) (g : R -> R') (s : machine World),
     (forall w : Flat.generic_functor F,
        Flat.call (CF:=with_value g CF) w s = Flat.call w s) /\
     (forall w : Primary.generic_functor F D,
        Primary.call (CF:=with_value g CF) w tt s = Primary.call w tt s)) /\
  (forall (S' : Type) (g : S -> S') (w : Variadic.variadic_functor G D)
          (a : tuple Args) (s : machine World),
     Variadic.call (CF:=with_value g CG) w a s = Variadic.call w a s).
Proof.
  repeat split; intros.
  - rewrite flat_call_unfold; reflexivity.
  - rewrite primary_call_unfold; reflexivity.
  - rewrite variadic_call_unfold, call_passed_unfold.
    destruct (pass a (world s)) as [[ps|e|] w1]; reflexivity.
  - unfold Flat.call; rewrite call_stmt_with_value; reflexivity.
  - unfold Primary.call; rewrite call_stmt_with_value; reflexivity.
  - unfold Variadic.call, call_passed.
    destruct (pass a (world s)) as [[ps|e|] w1]; try reflexivity.
    rewrite call_stmt_with_value; reflexivity.
Qed.

End TransparencyProperties.

(** ** Which specialization is chosen *)

Section SelectProperties.
Import fn_base.
Context {Ty : Type} `{EqDecision Ty}.
Variable void : Ty.
Variable is_polymorphic : Ty -> bool.
Variable denote : Ty -> Type.

(** C2. [generic_functor<F, D>] is the primary template, which derives
    from [D], exactly when [D] is polymorphic, and the flat
    specialization otherwise.  The choice is a function of [D] alone:
    it is the same for every [F], and it is made on types, before any
    object or memory exists. *)
Theorem generic_functor_selected_by_base (F F' D : Ty) :
  Select.generic_functor void is_polymorphic F D =
    (if is_polymorphic D then Select.primary else Select.flat) /\
  (Select.generic_functor void is_polymorphic F D = Select.primary <->
   is_polymorphic D = true) /\
  Select.generic_functor void is_polymorphic F D =
    Select.generic_functor void is_polymorphic F' D /\
  Select.wrapper void is_polymorphic denote F D =
    (if is_polymorphic D
     then Primary.generic_functor (denote F) (denote D)
     else Flat.generic_functor (denote F)).
Proof.
  unfold Select.wrapper, Select.generic_functor, Select.instantiate,
    Select.enable_if.
  destruct (is_polymorphic D); cbn.
  - repeat split; reflexivity.
  - rewrite decide_True by reflexivity.
    repeat split; discriminate.
Qed.

End SelectProperties.


Section Scenarios.
Import Lang fn_base Samples.

(** The scenario of the spec for the guard: one guard in a block, the
    body ending normally or by an exception; the action has run once
    either way. *)
Example guard_runs_on_both_exits :
  Guard.block
    (fun s => (Returned tt, [fst (Guard.ctor lvalue bump_closure)], s)) start =
    (Returned tt, Machine 1 [called bump_closure]) /\
  Guard.block
    (fun s => (Threw (runtime_error 3) : result exn unit,
               [fst (Guard.ctor lvalue bump_closure)], s)) start =
    (Threw (runtime_error 3), Machine 1 [called bump_closure]).
Proof. split; reflexivity. Qed.

(** A guard over a [std::function]: the moved-from guard calls the empty
    function at the end of the block, which throws out of a destructor. *)
Example moved_from_function_guard_terminates :
  Guard.block (Guard.move_block rvalue (Some bump_closure : slot)) start =
    (Terminated,
     Machine 1 [called (Some bump_closure : slot); called (None : slot)]).
Proof. reflexivity. Qed.

(** Three calls among copies, moves and assignments: three increments. *)
Example client_counts_three :
  Flat.run client ([], start) =
    (Returned tt,
     ([Flat.Build bump_closure; Flat.Build bump_closure;
       Flat.Build bump_closure],
      Machine 3 [called bump_closure; called bump_closure;
                 called bump_closure]),
     client).
Proof. reflexivity. Qed.

(** The closure's own state lives in the wrapper and advances per call. *)
Example tally_advances :
  Flat.call (Flat.Build (Tally 0)) start =
    (Returned tt, Flat.Build (Tally 1), Machine 0 [called (Tally 0)]).
Proof. reflexivity. Qed.

(** Through a handle, the wrapper's override runs, not the body of the
    base: a base object on its own leaves the counter alone, and the
    abstract [functor_extension] has no objects of its own. *)
Example override_not_base_body :
  snd (virtual_call
         (Primary.as_base (Primary.Build quiet_base_subobject bump_closure))
         tt start) = Machine 1 [called bump_closure] /\
  option_map
    (fun h : handle nat exn quiet_base [] => snd (virtual_call h tt start))
    (handle_of_base quiet_base_subobject) = Some start /\
  handle_of_base (World:=nat) (Exn:=exn) (Args:=[])
    functor_extension_subobject = None.
Proof. repeat split. Qed.

(** Two closures behind two handles of the same base. *)
Example two_handles_own_closures :
  let h1 := Primary.as_base (Primary.Build functor_extension_subobject (Adder 5)) in
  let h2 := Primary.as_base (Primary.Build functor_extension_subobject (Adder 7)) in
  snd (virtual_call h1 tt start) = Machine 5 [called (Adder 5)] /\
  snd (virtual_call h2 tt start) = Machine 7 [called (Adder 7)] /\
  snd (virtual_call h2 tt (snd (virtual_call h1 tt start))) =
    Machine 12 [called (Adder 5); called (Adder 7)].
Proof. repeat split. Qed.

(** Arguments reach the callable in their positions. *)
Example shift_through_base :
  let h := Variadic.as_base
             (Variadic.Build functor_extension_subobject shift_closure) in
  snd (virtual_call h (4, (true, tt)) (Machine 10 [])) =
    Machine 14 [Call shift_closure [nat : Type; bool : Type] (4, (true, tt))] /\
  world (snd (virtual_call h (4, (false, tt)) (Machine 10 []))) = 6 /\
  fst (fst (virtual_call h (4, (false, tt)) (Machine 3 []))) =
    Threw (runtime_error 1).
Proof. repeat split. Qed.


Lemma wrapper_call_propagates_exception_witness :
  fst (fst (eval_call0 thrower_closure (world start))) = Threw (runtime_error 7) /\
  fst (fst (Flat.call (Flat.Build thrower_closure) start)) =
    Threw (runtime_error 7).
Proof.
  split; [reflexivity |].
  exact (proj1 (proj1 (wrapper_call_propagates_exception
                         (D:=functor_extension) (CF:=thrower_callable)
                         (CG:=shift_callable) (runtime_error 7))
                  (Flat.Build thrower_closure) start eq_refl)).
Defined.

End Scenarios.

Section GuardSamples.
Import Lang fn_base Samples.

(** C1 as stated fails: with [g = [&counter]{ ++counter; }], the guard
    that was moved from still calls [g] when it is destroyed, and the
    block [{ a(g); b(std::move(a)); }] runs [g] twice. *)
Lemma moved_from_guard_still_invokes :
  Guard.move_ctor (fst (Guard.ctor lvalue bump_closure)) start =
    (Returned (Guard.Build bump_closure, Guard.Build bump_closure), start) /\
  Guard.dtor (Guard.Build (moved_from bump_closure)) start =
    (Returned tt, Machine 1 [called bump_closure]) /\
  Guard.block (Guard.move_block lvalue bump_closure) start =
    (Returned tt, Machine 2 [called bump_closure; called bump_closure]).
Proof. repeat split. Qed.

Lemma guard_scope_exit_invokes_every_instance_witness :
  nothrow bump /\
  log (snd (Guard.block (Guard.move_block rvalue bump_closure) start)) =
    [called bump_closure; called bump_closure] /\
  log (snd (Guard.guarded_block lvalue bump_closure
              (fun s => (Threw (runtime_error 3) : result exn unit, s)) start)) =
    [called bump_closure].
Proof.
  split; [intros f w; reflexivity | split].
  - exact (proj2 (proj2 (proj2 (proj2 (guard_scope_exit_invokes_every_instance
                                         (CF:=bump_callable)))
                           (fun f w => eq_refl))
                    rvalue bump_closure start)).
  - refine (proj1 (proj1 (guard_scope_exit_invokes_every_instance
                            (CF:=bump_callable))
                     unit lvalue bump_closure
                     (fun s => (Threw (runtime_error 3), s)) start _)).
    discriminate.
Defined.

End GuardSamples.

(** ** Further properties of [generic_guard] *)

Section GuardLifetime.
Import Lang fn_base.
Context {World Exn : Type} {F R : Type} {CF : Callable World Exn F [] R}.
Context {DF : Destructor F}.

Lemma unwind_calls (gs : list (Guard.generic_guard F)) :
  forall s : machine World,
    exists k : nat,
      k <= length gs /\
      log (snd (Guard.unwind gs s)) =
        log s ++ map (fun g => called (Guard.m_fn g)) (take k gs) /\
      (fst (Guard.unwind gs s) = Returned tt /\ k = length gs \/
       fst (Guard.unwind gs s) = Terminated).
Proof.
  induction gs as [|g gs IH]; intros s.
  - exists 0; cbn; rewrite app_nil_r; auto.
  - cbn [Guard.unwind].
    pose proof (guard_dtor_log g s) as Hl.
    destruct (Guard.dtor g s) as [r s1]; cbn [fst snd] in Hl.
    destruct r as [[]|e|].
    + destruct (IH s1) as (k & Hk & Hlog & Hres).
      exists (S k); cbn [length take map]; split; [lia |]; split.
      * rewrite Hlog, Hl, <- app_assoc; reflexivity.
      * destruct Hres as [[Hr ->] | Hr]; [left | right]; auto.
    + exists 1; cbn [length take map snd fst]; split; [lia |]; split.
      * rewrite take_0; exact Hl.
      * right; reflexivity.
    + exists 1; cbn [length take map snd fst]; split; [lia |]; split.
      * rewrite take_0; exact Hl.
      * right; reflexivity.
Qed.

Lemma destroy_all_calls (gs : list (Guard.generic_guard F)) :
  forall s : machine World,
    exists k : nat,
      k <= length gs /\
      log (snd (Guard.destroy_all gs s)) =
        log s ++ map (fun g => called (Guard.m_fn g)) (take k gs) /\
      (fst (Guard.destroy_all gs s) <> Terminated -> k = length gs).
Proof.
  induction gs as [|g gs IH]; intros s.
  - exists 0; cbn; rewrite app_nil_r; auto.
  - cbn [Guard.destroy_all].
    pose proof (guard_dtor_log g s) as Hl.
    destruct (Guard.dtor g s) as [r s1]; cbn [fst snd] in Hl.
    destruct r as [[]|e|].
    + destruct (IH s1) as (k & Hk & Hlog & Hres).
      exists (S k); cbn [length take map]; split; [lia |]; split.
      * rewrite Hlog, Hl, <- app_assoc; reflexivity.
      * intros Hr; rewrite (Hres Hr); reflexivity.
    + destruct (unwind_calls gs s1) as (k & Hk & Hlog & Hres).
      exists (S k); cbn [length take map]; split; [lia |].
      destruct (Guard.unwind gs s1) as [r2 s2]; cbn [fst snd] in *.
      split.
      * destruct r2; cbn [snd]; rewrite Hlog, Hl, <- app_assoc; reflexivity.
      * destruct Hres as [[-> ->] | ->]; cbn [fst]; congruence.
    + exists 1; cbn [length take map snd fst]; split; [lia |]; split.
      * rewrite take_0; exact Hl.
      * congruence.
Qed.

(** Whatever the actions do and whatever the exception specification of
    the destructor of [F], leaving a block calls the actions of its
    guards in reverse declaration order, each at most once, and only the
    end of the program stops it: a block that did not end the program
    called the action of every guard exactly once, also when one of the
    destructors let an exception out on the way. *)
Theorem guard_block_outcome_and_calls {A : Type}
    (body : machine World ->
            result Exn A * list (Guard.generic_guard F) * machine World)
    (s : machine World) :
  exists k : nat,
    k <= length (snd (fst (body s))) /\
    log (snd (Guard.block body s)) =
      log (snd (body s)) ++
      map (fun g => called (Guard.m_fn g)) (take k (rev (snd (fst (body s))))) /\
    (fst (Guard.block body s) <> Terminated -> k = length (snd (fst (body s)))).
Proof.
  unfold Guard.block, Guard.leave_scope.
  destruct (body s) as [[r locals] s1]; cbn [fst snd].
  destruct r as [a|e|].
  - destruct (destroy_all_calls (rev locals) s1) as (k & Hk & Hlog & Hres).
    rewrite length_rev in Hk, Hres.
    destruct (Guard.destroy_all (rev locals) s1) as [rd s2];
      cbn [fst snd] in Hlog, Hres.
    exists k; split; [assumption |].
    destruct rd as [[]|e|]; cbn [fst snd]; (split; [assumption |]);
      intros Hr; apply Hres; congruence.
  - destruct (unwind_calls (rev locals) s1) as (k & Hk & Hlog & Hres).
    rewrite length_rev in Hk, Hres.
    destruct (Guard.unwind (rev locals) s1) as [rd s2];
      cbn [fst snd] in Hlog, Hres.
    exists k; split; [assumption |].
    destruct Hres as [[-> Hlen] | ->]; cbn [fst snd];
      (split; [assumption | congruence]).
  - exists 0; rewrite take_0; cbn [fst snd map]; rewrite app_nil_r.
    repeat split; [lia | congruence].
Qed.

Lemma guard_step_declares (o : Guard.op F) (ls : list (Guard.generic_guard F))
    (s : machine World) :
  Guard.in_scope o (length ls) = true ->
  exists ls' : list (Guard.generic_guard F),
    Guard.step o (ls, s) = (Returned tt, (ls', s)) /\
    length ls' = Guard.declares o + length ls.
Proof.
  destruct o as [c fn|i|i|i j|i j]; simpl; intros Hi.
  - eexists; split; [reflexivity |]. rewrite length_app; simpl; lia.
  - apply Nat.ltb_lt in Hi.
    destruct (lookup_lt_is_Some_2 ls i Hi) as [w ->]; simpl.
    eexists; split; [reflexivity |]. rewrite length_app; simpl; lia.
  - apply Nat.ltb_lt in Hi.
    destruct (lookup_lt_is_Some_2 ls i Hi) as [w ->]; simpl.
    eexists; split; [reflexivity |].
    rewrite length_app, length_insert; simpl; lia.
  - destruct (ls !! i), (ls !! j); simpl; eexists; split;
      try reflexivity; rewrite ?length_insert; reflexivity.
  - destruct (ls !! i), (ls !! j); simpl; eexists; split;
      try reflexivity; rewrite ?length_insert; reflexivity.
Qed.

Lemma guard_run_declares (ops : list (Guard.op F)) :
  forall (ls : list (Guard.generic_guard F)) (s : machine World),
    Guard.well_scoped ops (length ls) = true ->
    exists ls' : list (Guard.generic_guard F),
      Guard.run ops (ls, s) = (Returned tt, (ls', s)) /\
      length ls' = Guard.declarations ops + length ls.
Proof.
  induction ops as [|o os IH]; intros ls s Hw.
  - exists ls; split; reflexivity.
  - cbn in Hw; apply andb_prop in Hw as [Ho Hos].
    destruct (guard_step_declares o ls s Ho) as (ls1 & Hstep & Hlen).
    rewrite <- Hlen in Hos.
    destruct (IH ls1 s Hos) as (ls2 & Hrun & Hlen2).
    exists ls2; cbn [Guard.run Guard.declarations]; rewrite Hstep.
    split; [exact Hrun | lia].
Qed.

(** With an action that does not throw, a block whose body declares,
    copies, moves and assigns guards ends normally and calls an action
    exactly once per guard object it declared: a copy adds a call, a
    move adds a call, an assignment adds none and removes none. *)
Theorem guard_client_block_calls_per_declaration
    (ops : list (Guard.op F)) (s : machine World) :
  nothrow F ->
  Guard.well_scoped ops 0 = true ->
  fst (Guard.client_block ops s) = Returned tt /\
  length (log (snd (Guard.client_block ops s))) =
    length (log s) + Guard.declarations ops.
Proof.
  intros Hn Hw.
  destruct (guard_run_declares ops [] s Hw) as (ls & Hrun & Hlen).
  unfold Guard.client_block.
  set (body := fun s0 : machine World =>
                 let '(r, (ls0, s')) := Guard.run ops ([], s0) in (r, ls0, s')).
  assert (Hb : body s = (Returned tt, ls, s)) by (unfold body; rewrite Hrun; reflexivity).
  destruct (guard_block_exit body s Hn) as [H1 H2].
  - rewrite Hb; discriminate.
  - rewrite H1, H2, Hb; cbn [fst snd]; split; [reflexivity |].
    rewrite length_app, length_map, length_rev, Hlen; cbn; lia.
Qed.

End GuardLifetime.

(** ** Further properties of the wrappers *)

Section WrapperLifetime.
Import Lang fn_base.
Context {World Exn : Type} {D : Type}.

(** Constructing a wrapper derived from [D] and calling it through [D]:
    the base is built first and the callable is not called by the
    constructor.  If the constructor of [D] throws, that exception is
    the outcome, nothing is logged and the callable argument is left as
    it was, also when it was passed as an rvalue.  Otherwise the outcome
    is that of the one call of the callable, made in the memory the base
    constructor left (for the variadic wrapper: on the parameters
    initialised from the arguments, and with no call if that
    initialisation throws), and the argument is left as copying or
    moving leaves it. *)
Theorem derived_wrapper_construct_then_call
    {F R : Type} {Args D_Args : list Type}
    (D_ctor : arrow D_Args (World -> result Exn D * World))
    (c : category) (args : tuple D_Args) (s : machine World) :
  let built := apply_pack D_ctor args (world s) in
  (forall (CF : Callable World Exn F [] R) (fn : F),
     Primary.make_and_call D_ctor c fn args s =
       match fst built with
       | Returned d =>
           (discard (fst (fst (eval_call0 fn (snd built)))),
            snd (forward_init c fn),
            Machine (snd (eval_call0 fn (snd built))) (log s ++ [called fn]))
       | Threw e => (Threw e, fn, Machine (snd built) (log s))
       | Terminated => (Terminated, fn, Machine (snd built) (log s))
       end) /\
  (forall (CF : Callable World Exn F Args R) (PA : Passing World Exn Args)
          (fn : F) (a : tuple Args),
     Variadic.make_and_call D_ctor c fn args a s =
       match fst built with
       | Returned d =>
           match pass a (snd built) with
           | (Returned ps, w1) =>
               (discard (fst (fst (eval_call fn ps w1))),
                snd (forward_init c fn),
                Machine (snd (eval_call fn ps w1))
                        (log s ++ [Call fn Args ps]))
           | (Threw e, w1) =>
               (Threw e, snd (forward_init c fn), Machine w1 (log s))
           | (Terminated, w1) =>
               (Terminated, snd (forward_init c fn), Machine w1 (log s))
           end
       | Threw e => (Threw e, fn, Machine (snd built) (log s))
       | Terminated => (Terminated, fn, Machine (snd built) (log s))
       end).
Proof.
  cbv zeta; split.
  - intros CF fn.
    unfold Primary.make_and_call, Primary.ctor.
    destruct (apply_pack D_ctor args (world s)) as [[d|e|] w']; cbn [fst snd];
      try reflexivity.
    assert (Hf : forward_init c fn = (fn, snd (forward_init c fn)))
      by (destruct c; reflexivity).
    rewrite Hf; cbn [snd].
    unfold virtual_call, Primary.as_base; cbn [final_overrider object base_of].
    rewrite primary_call_unfold; reflexivity.
  - intros CF PA fn a.
    unfold Variadic.make_and_call, Variadic.ctor.
    destruct (apply_pack D_ctor args (world s)) as [[d|e|] w']; cbn [fst snd];
      try reflexivity.
    assert (Hf : forward_init c fn = (fn, snd (forward_init c fn)))
      by (destruct c; reflexivity).
    rewrite Hf; cbn [snd].
    unfold virtual_call, Variadic.as_base; cbn [final_overrider object base_of].
    rewrite variadic_call_unfold, call_passed_unfold; cbn [world log].
    destruct (pass a w') as [[ps|e|] w1]; reflexivity.
Qed.

Lemma primary_virtual_call_stmt {F R : Type} {CF : Callable World Exn F [] R}
    (w : Primary.generic_functor F D) (s : machine World) :
  virtual_call (Primary.as_base w) tt s =
    (fst (fst (call_stmt (Args:=[]) (Primary.m_func w) tt s)),
     Primary.as_base
       (Primary.Build (Primary.base w)
          (snd (fst (call_stmt (Args:=[]) (Primary.m_func w) tt s)))),
     snd (call_stmt (Args:=[]) (Primary.m_func w) tt s)).
Proof.
  unfold virtual_call, Primary.as_base, Primary.call.
  cbn [final_overrider object base_of].
  destruct (call_stmt (Args:=[]) (Primary.m_func w) tt s) as [[r f'] s'].
  reflexivity.
Qed.

Lemma variadic_virtual_call_passed {F R : Type} {Args : list Type}
    {CF : Callable World Exn F Args R} {PA : Passing World Exn Args}
    (w : Variadic.variadic_functor F D) (a : tuple Args) (s : machine World) :
  virtual_call (Variadic.as_base w) a s =
    (fst (fst (call_passed (Variadic.m_func w) a s)),
     Variadic.as_base
       (Variadic.Build (Variadic.base w)
          (snd (fst (call_passed (Variadic.m_func w) a s)))),
     snd (call_passed (Variadic.m_func w) a s)).
Proof.
  unfold virtual_call, Variadic.as_base, Variadic.call.
  cbn [final_overrider object base_of].
  destruct (call_passed (Variadic.m_func w) a s) as [[r f'] s'].
  reflexivity.
Qed.

Lemma call_each_passed_log_length {F R : Type} {Args : list Type}
    {CF : Callable World Exn F Args R} {PA : Passing World Exn Args}
    (l : list (tuple Args)) :
  forall (f : F) (s : machine World),
    fst (fst (call_each_passed f l s)) = Returned tt ->
    length (log (snd (call_each_passed f l s))) = length (log s) + length l.
Proof.
  induction l as [|a l IH]; intros f s; cbn [call_each_passed length].
  - cbn [fst snd]; intros _; lia.
  - pose proof (call_passed_unfold f a s) as Hc.
    destruct (call_passed f a s) as [[r f1] s1].
    destruct r as [[]|e|]; cbn [fst snd]; try discriminate.
    intros Hr; rewrite (IH f1 s1 Hr).
    destruct (pass a (world s)) as [[ps|e|] w1]; try discriminate.
    injection Hc as _ _ ->; cbn [log]; rewrite length_app; cbn; lia.
Qed.

(** Repeated calls of a wrapper are repeated calls of the callable it
    holds, which keeps its state from one call to the next: a loop over
    the flat wrapper, or through a [D] handle to either derived wrapper,
    ends like the same loop over the callable itself (for the variadic
    wrapper, called each time on the parameters initialised from the
    arguments), with the same memory and log, and leaves the callable's
    final state in the wrapper.  The loop stops at the first call that
    does not return; one that ends normally has made one call per
    round. *)
Theorem repeated_wrapper_calls_are_repeated_calls
    {F R : Type} {Args : list Type} :
  (forall (CF : Callable World Exn F [] R) (n : nat)
          (w : Flat.generic_functor F) (s : machine World),
     Flat.call_times n w s =
       (fst (fst (call_each (Args:=[]) (Flat.m_func w) (replicate n tt) s)),
        Flat.Build
          (snd (fst (call_each (Args:=[]) (Flat.m_func w) (replicate n tt) s))),
        snd (call_each (Args:=[]) (Flat.m_func w) (replicate n tt) s))) /\
  (forall (CF : Callable World Exn F [] R) (l : list (tuple []))
          (w : Primary.generic_functor F D) (s : machine World),
     virtual_call_each (Primary.as_base w) l s =
       (fst (fst (call_each (Primary.m_func w) l s)),
        Primary.as_base
          (Primary.Build (Primary.base w)
             (snd (fst (call_each (Primary.m_func w) l s)))),
        snd (call_each (Primary.m_func w) l s))) /\
  (forall (CF : Callable World Exn F Args R) (PA : Passing World Exn Args)
          (l : list (tuple Args))
          (w : Variadic.variadic_functor F D) (s : machine World),
     virtual_call_each (Variadic.as_base w) l s =
       (fst (fst (call_each_passed (Variadic.m_func w) l s)),
        Variadic.as_base
          (Variadic.Build (Variadic.base w)
             (snd (fst (call_each_passed (Variadic.m_func w) l s)))),
        snd (call_each_passed (Variadic.m_func w) l s)) /\
     (fst (fst (virtual_call_each (Variadic.as_base w) l s)) = Returned tt ->
      length (log (snd (virtual_call_each (Variadic.as_base w) l s))) =
        length (log s) + length l)).
Proof.
  split; [| split].
  - intros CF n; induction n as [|n IH]; intros [f] s.
    + reflexivity.
    + cbn [Flat.call_times replicate call_each Flat.m_func].
      unfold Flat.call; cbn [Flat.m_func].
      destruct (call_stmt (Args:=[]) f tt s) as [[r f1] s1].
      destruct r as [[]|e|]; try reflexivity.
      rewrite (IH (Flat.Build f1) s1); reflexivity.
  - intros CF l; induction l as [|a l IH]; intros [d f] s.
    + reflexivity.
    + cbn [virtual_call_each call_each].
      destruct a; rewrite primary_virtual_call_stmt.
      cbn [Primary.m_func Primary.base].
      destruct (call_stmt (Args:=[]) f tt s) as [[r f1] s1]; cbn [fst snd].
      destruct r as [[]|e|]; try reflexivity.
      exact (IH (Primary.Build d f1) s1).
  - intros CF PA l w s.
    assert (Hsim : forall (l : list (tuple Args))
                          (w : Variadic.variadic_functor F D)
                          (s : machine World),
               virtual_call_each (Variadic.as_base w) l s =
                 (fst (fst (call_each_passed (Variadic.m_func w) l s)),
                  Variadic.as_base
                    (Variadic.Build (Variadic.base w)
                       (snd (fst (call_each_passed (Variadic.m_func w) l s)))),
                  snd (call_each_passed (Variadic.m_func w) l s))).
    { clear l w s; intros l; induction l as [|a l IH]; intros [d f] s.
      - reflexivity.
      - cbn [virtual_call_each call_each_passed].
        rewrite variadic_virtual_call_passed.
        cbn [Variadic.m_func Variadic.base].
        destruct (call_passed f a s) as [[r f1] s1]; cbn [fst snd].
        destruct r as [[]|e|]; try reflexivity.
        exact (IH (Variadic.Build d f1) s1). }
    split; [apply Hsim |].
    rewrite Hsim; cbn [fst snd].
    apply call_each_passed_log_length.
Qed.

Lemma call_directly_unfold (x : Instances.instance World Exn D)
    (s : machine World) :
  virtual_call (Instances.emplace x) tt s =
    (fst (fst (Instances.call_directly x s)),
     Instances.emplace (snd (fst (Instances.call_directly x s))),
     snd (Instances.call_directly x s)) /\
  log (snd (Instances.call_directly x s)) =
    log s ++ [called (Primary.m_func (Instances.fn_wrapper x))].
Proof.
  destruct x as [T T' CT [d f]].
  unfold virtual_call, Instances.emplace, Instances.call_directly,
    Primary.as_base, Primary.call, call_stmt.
  cbn [final_overrider object base_of Instances.fn_wrapper
       Instances.fn_callable Instances.fn_type Instances.fn_result
       Primary.m_func Primary.base].
  destruct (eval_call (Args:=[]) f tt (world s)) as [[r f'] w'].
  split; reflexivity.
Qed.

(** The loop of the header's example, over a container of owned
    [D] handles to wrappers of different callable types, calls the
    stored callables themselves, in container order, each in the state
    its own wrapper holds, and stops at the first that does not return.
    When the loop ends normally every stored callable was called exactly
    once. *)
Theorem container_loop_calls_each_stored_callable
    (xs : list (Instances.instance World Exn D)) (s : machine World) :
  call_all (map Instances.emplace xs) s =
    (fst (fst (Instances.call_all_directly xs s)),
     map Instances.emplace (snd (fst (Instances.call_all_directly xs s))),
     snd (Instances.call_all_directly xs s)) /\
  (fst (fst (call_all (map Instances.emplace xs) s)) = Returned tt ->
   log (snd (call_all (map Instances.emplace xs) s)) =
     log s ++
     map (fun x => called (Primary.m_func (Instances.fn_wrapper x))) xs).
Proof.
  revert s; induction xs as [|x xs IH]; intros s.
  - cbn; rewrite app_nil_r; split; reflexivity.
  - cbn [map call_all Instances.call_all_directly].
    destruct (call_directly_unfold x s) as [Hv Hl].
    rewrite Hv.
    destruct (Instances.call_directly x s) as [[r x1] s1]; cbn [fst snd] in *.
    destruct r as [[]|e|]; cbn [fst snd].
    + destruct (IH s1) as [IH1 IH2]. rewrite IH1 in *.
      destruct (Instances.call_all_directly xs s1) as [[r2 xs2] s2].
      cbn [fst snd] in *. split; [reflexivity |].
      intros Hr. rewrite (IH2 Hr), Hl, <- app_assoc. reflexivity.
    + split; [reflexivity | discriminate].
    + split; [reflexivity | discriminate].
Qed.

End WrapperLifetime.

Section SelectThirdArgument.
Import fn_base.
Context {Ty : Type} `{EqDecision Ty}.
Variable void : Ty.
Variable is_polymorphic : Ty -> bool.

(** With the third template argument written out, the flat
    specialization is chosen exactly when the base is not polymorphic
    and that argument is [void]; any other third argument names the
    primary template, which derives from [D], also for a base that is
    not polymorphic. *)
Theorem flat_selected_only_with_void_third_argument (F D X : Ty) :
  Select.instantiate void is_polymorphic F D X = Select.flat <->
  is_polymorphic D = false /\ X = void.
Proof.
  unfold Select.instantiate, Select.enable_if.
  destruct (is_polymorphic D); cbn.
  - split; [discriminate | intros [Hd _]; discriminate].
  - destruct (decide (void = X)) as [<- | Hne].
    + split; auto.
    + split; [discriminate | intros [_ ->]; contradiction].
Qed.

End SelectThirdArgument.

Section LifetimeScenarios.
Import Lang fn_base Samples.

(** One call per guard object declared: three guards, three increments. *)
Example guard_client_counts_three :
  Guard.client_block guard_client start =
    (Returned tt,
     Machine 3 [called bump_closure; called bump_closure; called bump_closure]).
Proof. reflexivity. Qed.

(** A guard over a throwing action ends the program when its block is
    left, and the guard declared before it is never destroyed. *)
Example throwing_action_terminates :
  Guard.block
    (fun s => (Returned tt,
               [Guard.Build thrower_closure; Guard.Build thrower_closure], s))
    start = (Terminated, Machine 1 [called thrower_closure]).
Proof. reflexivity. Qed.

(** The closure of the header's example keeps counting across calls. *)
Example tally_counts_across_calls :
  Flat.call_times 3 (Flat.Build (Tally 0)) start =
    (Returned tt, Flat.Build (Tally 3),
     Machine 0 [called (Tally 0); called (Tally 1); called (Tally 2)]).
Proof. reflexivity. Qed.

(** Two wrappers of different callable types in one container. *)
Example container_of_two :
  snd (call_all
         [Instances.emplace
            (Instances.Instance bump unit bump_callable
               (Primary.Build functor_extension_subobject bump_closure));
          Instances.emplace
            (Instances.Instance adder nat adder_callable
               (Primary.Build functor_extension_subobject (Adder 4)))]
         start) =
    Machine 5 [called bump_closure; called (Adder 4)].
Proof. reflexivity. Qed.

Lemma guard_client_block_calls_per_declaration_witness :
  nothrow bump /\
  Guard.well_scoped guard_client 0 = true /\
  length (log (snd (Guard.client_block guard_client start))) =
    length (log start) + Guard.declarations guard_client.
Proof.
  split; [intros f w; reflexivity | split; [reflexivity |]].
  exact (proj2 (guard_client_block_calls_per_declaration
                  (CF:=bump_callable) guard_client start
                  (fun f w => eq_refl) eq_refl)).
Defined.

(** With a destructor of [F] that is [noexcept(false)], an exception of
    the last guard's action leaves its destructor at the end of the
    block; the guard declared before it is destroyed by unwinding and
    the exception leaves the block.  When the body itself threw, the
    same action ends the program. *)
Example throwing_destructor_unwinds_the_rest :
  Guard.block
    (fun s => (Returned tt,
               [Guard.Build loud_holding; Guard.Build loud_empty], s))
    start =
    (Threw bad_function_call,
     Machine 1 [called loud_empty; called loud_holding]) /\
  Guard.block
    (fun s => (Threw (runtime_error 3) : result exn unit,
               [Guard.Build loud_holding; Guard.Build loud_empty], s))
    start = (Terminated, Machine 0 [called loud_empty]).
Proof. split; reflexivity. Qed.



End LifetimeScenarios.
